(** * Bus management backend: live location broadcast

    A shallow embedding of the unified backend (the [server.js] part of
    [src/frontend/vite.config.js]): the in-memory bus store, the GraphQL
    mutation resolvers, the [/simulate-location] REST handler and the
    subscription resolver, together with a model of the publish/subscribe
    engine the resolvers talk to.

    JavaScript numbers are IEEE binary64 values, so coordinates are
    primitive floats.  A bus is a mutable object that the store, the
    resolvers' return values and the published events all share; since
    the array [buses] only ever grows by [push] and never replaces an
    element, the position of a bus in the array identifies the object, and
    a reference to a bus is that position. *)

From Stdlib Require Import PrimFloat.
From stdpp Require Import gmap strings list fin_maps pretty.

Set Warnings "-inexact-float,-clear-no-such-hyp".
Set Default Proof Using "Type".

(** ** Data model (the GraphQL schema, [typeDefs]) *)

(** [type Coordinates { lat: Float, lng: Float }] *)
Record Coordinates := mkCoordinates { lat : float; lng : float }.

(** [type Bus { id: ID!, number: String!, route: String!, capacity: Int,
    coords: Coordinates }]; [capacity] is nullable. *)
Record Bus := mkBus {
  bus_id : string;
  number : string;
  route : string;
  capacity : option Z;
  coords : Coordinates;
}.

(** [type Review { id: ID!, name: String!, message: String!, timestamp: Float }] *)
Record Review := mkReview {
  review_id : string;
  review_name : string;
  review_message : string;
  review_timestamp : Z;
}.

(** A reference to a bus object: its position in [buses]. *)
Definition BusRef := nat.

(** The payload handed to [pubsub.publish]: the object
    [{ busLocationUpdated: bus }].  The wrapper is fresh, the bus inside it
    is the store's own object. *)
Record Event := mkEvent { busLocationUpdated : BusRef }.

Definition BUS_LOC_TOPIC : string := "BUS_LOCATION".
Definition JSON_SERVER_PORT : Z := 9002.

(** ** The publish/subscribe engine *)

Module PubSub.

(** A subscription belongs to one topic and owns one delivery channel. *)
Record Subscription (E : Type) := mkSubscription {
  sub_topic : string;
  sub_channel : list E;
}.
Arguments mkSubscription {E} _ _.
Arguments sub_topic {E} _.
Arguments sub_channel {E} _.

(** Modelled from the spec: the engine [PubSub] of the
    [graphql-subscriptions] package, which the source only imports.  The
    topic registry maps a topic identifier to the set of handles of its
    active subscriptions; every subscription ever created keeps its
    record (topic and channel), which its session owns; handles are
    issued from a counter and are never reused. *)
Record t (E : Type) := mk {
  registry : gmap string (gset nat);
  subscriptions : gmap nat (Subscription E);
  next_handle : nat;
}.
Arguments mk {E} _ _ _.
Arguments registry {E} _.
Arguments subscriptions {E} _.
Arguments next_handle {E} _.

Section engine.
Context {E : Type}.
Implicit Types (ps : t E) (topic : string) (h : nat) (e : E).

(** [new PubSub()] *)
Definition new : t E := mk ∅ ∅ 0.

(** The set of subscriptions registered under a topic; a topic nobody
    subscribed to has the empty set. *)
Definition subscribers topic ps : gset nat :=
  default ∅ (registry ps !! topic).

(** The buffered, not yet drained, events of a subscription. *)
Definition channel h ps : list E :=
  from_option sub_channel [] (subscriptions ps !! h).

(** Modelled from the spec: [subscribe(topic) -> Subscription] creates a
    subscription bound to [topic] with an empty channel, registers it
    under the topic and returns its handle. *)
Definition subscribe topic ps : nat * t E :=
  let h := next_handle ps in
  (h, mk (<[topic := {[h]} ∪ subscribers topic ps]> (registry ps))
         (<[h := mkSubscription topic []]> (subscriptions ps))
         (S h)).

(** Channel policy (a) of the spec: unbounded buffering, the event goes
    to the back of the queue and nothing is ever dropped. *)
Definition deliver e (s : Subscription E) : Subscription E :=
  mkSubscription (sub_topic s) (sub_channel s ++ [e]).

(** Modelled from the spec: [publish(topic, event)] delivers the event
    to the channel of every subscription currently registered under
    the topic; with no subscriber it does nothing. *)
Definition publish topic e ps : t E :=
  mk (registry ps)
     (set_fold (alter (deliver e)) (subscriptions ps) (subscribers topic ps))
     (next_handle ps).

(** Modelled from the spec: [unsubscribe(subscription)] removes the
    subscription from its topic's set; on an unknown or already removed
    subscription it is a no-op.  The channel stays with the session, so
    already buffered events can still be drained. *)
Definition unsubscribe h ps : t E :=
  match subscriptions ps !! h with
  | Some s => mk (alter (λ X, X ∖ {[h]}) (sub_topic s) (registry ps))
                 (subscriptions ps)
                 (next_handle ps)
  | None => ps
  end.

(** The consumer side: the session takes everything buffered so far, in
    queue order, and leaves the channel empty. *)
Definition drain h ps : list E * t E :=
  (channel h ps,
   mk (registry ps)
      (alter (λ s, mkSubscription (sub_topic s) []) h (subscriptions ps))
      (next_handle ps)).

(** Sequential [publish] calls on one topic. *)
Definition publish_all topic (es : list E) ps : t E :=
  foldl (λ acc e, publish topic e acc) ps es.

(** The calls the registry accepts, for statements about arbitrary
    call sequences. *)
Inductive Call :=
| CSubscribe (topic : string)
| CPublish (topic : string) (e : E)
| CUnsubscribe (h : nat).

Definition call (c : Call) ps : t E :=
  match c with
  | CSubscribe topic => (subscribe topic ps).2
  | CPublish topic e => publish topic e ps
  | CUnsubscribe h => unsubscribe h ps
  end.

Definition calls (cs : list Call) ps : t E := foldl (λ acc c, call c acc) ps cs.

(** The events a call sequence publishes on a topic, in call order. *)
Definition published_on topic (cs : list Call) : list E :=
  omap (λ c, match c with
             | CPublish topic' e => if decide (topic' = topic) then Some e else None
             | _ => None
             end) cs.

(** Well-formed registries: a registered handle has a subscription
    record whose topic is the one it is registered under, and every
    handle in use was issued by the counter. *)
Record wf ps : Prop := {
  wf_registered : ∀ topic h,
    h ∈ subscribers topic ps →
    ∃ s, subscriptions ps !! h = Some s ∧ sub_topic s = topic;
  wf_issued : ∀ h, is_Some (subscriptions ps !! h) → h < next_handle ps;
}.

End engine.
Arguments Call : clear implicits.
End PubSub.

(** ** Resolvers: effects on the bus store and on the engine *)

(** A call [pubsub.publish(topic, payload)] made by a resolver. *)
Definition PublishCall : Type := string * Event.

(** A resolver runs against the module-level array [buses]; besides its
    result it leaves the updated array and the [pubsub.publish] calls it
    made, in call order. *)
Definition Resolver (A : Type) : Type :=
  list Bus → A * list Bus * list PublishCall.

Definition ret {A} (a : A) : Resolver A := λ bs, (a, bs, []).

Definition bind {A B} (m : Resolver A) (k : A → Resolver B) : Resolver B :=
  λ bs, let '(a, bs1, out1) := m bs in
        let '(b, bs2, out2) := k a bs1 in
        (b, bs2, out1 ++ out2).

(** Statements in sequence are written [x ← m; k] and [m;; k]. *)
#[global] Instance resolver_ret : MRet Resolver := @ret.
#[global] Instance resolver_bind : MBind Resolver := λ A B k m, bind m k.

Definition result {A} (r : A * list Bus * list PublishCall) : A := r.1.1.
Definition store {A} (r : A * list Bus * list PublishCall) : list Bus := r.1.2.
Definition published {A} (r : A * list Bus * list PublishCall) : list PublishCall := r.2.

(** [buses.length] *)
Definition buses_length : Resolver nat := λ bs, (length bs, bs, []).

(** [buses.push(bus)]; the new object sits at the old length. *)
Definition buses_push (b : Bus) : Resolver BusRef := λ bs, (length bs, bs ++ [b], []).

(** [buses.find(b => b.id === id)]: the first bus with that id, or
    [undefined]. *)
Definition buses_find (id : string) : Resolver (option BusRef) :=
  λ bs, (fst <$> list_find (λ b, bus_id b = id) bs, bs, []).

Definition with_lat (x : float) (b : Bus) : Bus :=
  mkBus (bus_id b) (number b) (route b) (capacity b) (mkCoordinates x (lng (coords b))).

Definition with_lng (x : float) (b : Bus) : Bus :=
  mkBus (bus_id b) (number b) (route b) (capacity b) (mkCoordinates (lat (coords b)) x).

(** [bus.coords.lat = f(bus.coords.lat)], in place. *)
Definition update_lat (r : BusRef) (f : float → float) : Resolver unit :=
  λ bs, (tt, alter (λ b, with_lat (f (lat (coords b))) b) r bs, []).

(** [bus.coords.lng = f(bus.coords.lng)], in place. *)
Definition update_lng (r : BusRef) (f : float → float) : Resolver unit :=
  λ bs, (tt, alter (λ b, with_lng (f (lng (coords b))) b) r bs, []).

(** Reading through a reference: the state of the bus object now. *)
Definition deref (bs : list Bus) (r : BusRef) : option Bus := bs !! r.

(** [pubsub.publish(topic, payload)] *)
Definition publish (topic : string) (payload : Event) : Resolver unit :=
  λ bs, (tt, bs, [(topic, payload)]).

(** [JSON.stringify(bus)] as [res.json] performs it: the fields of the
    object are read when the call is made. *)
Definition serialize (r : BusRef) : Resolver (option Bus) :=
  λ bs, (deref bs r, bs, []).

(** What a consumer sees in an event when it reads it against the store. *)
Definition payload (bs : list Bus) (e : Event) : option Bus :=
  deref bs (busLocationUpdated e).

(** The bus [b] with its coordinates set to [(x, y)], every other field
    kept. *)
Definition at_coords (x y : float) (b : Bus) : Bus :=
  mkBus (bus_id b) (number b) (route b) (capacity b) (mkCoordinates x y).

(** The bus [b] after one [/simulate-location] step with the draws
    [random1] and [random2]. *)
Definition jitter (random1 random2 : float) (b : Bus) : Bus :=
  at_coords (lat (coords b) + (random1 - 0.5) * 0.001)%float
            (lng (coords b) + (random2 - 0.5) * 0.001)%float b.

(** [let buses = [ { id: '1', ... } ]] *)
Definition initial_buses : list Bus :=
  [ mkBus "1" "MH12AB1234" "A-B" (Some 40%Z) (mkCoordinates 19.07 72.87) ].

(** ** Mutation resolvers *)

(** [String(n)] for an array length. *)
Definition String_of_nat (n : nat) : string := pretty n.

(** [Mutation.addBus] *)
Definition addBus (number route : string) (capacity : option Z) : Resolver BusRef :=
  n ← buses_length;
  let bus := mkBus (String_of_nat (n + 1)) number route capacity (mkCoordinates 0 0) in
  buses_push bus.

(** [Mutation.updateBusLocation]; the GraphQL layer passes an [ID] as a
    string, on which [String] is the identity.  [None] is [null]. *)
Definition updateBusLocation (id : string) (lat lng : float) : Resolver (option BusRef) :=
  bus ← buses_find id;
  match bus with
  | None => ret None
  | Some bus =>
      update_lat bus (λ _, lat);;
      update_lng bus (λ _, lng);;
      publish BUS_LOC_TOPIC (mkEvent bus);;
      ret (Some bus)
  end.

(** *** [Mutation.addReview] *)

(** The body of the POST, [{ name, message, timestamp }]. *)
Record NewReview := mkNewReview {
  new_name : string;
  new_message : string;
  new_timestamp : Z;
}.

Record FetchRequest := mkFetchRequest {
  fetch_url : string;
  fetch_method : string;
  fetch_content_type : string;
  fetch_body : NewReview;
}.

(** What the record store answered: a status and the document
    [response.json()] resolves to. *)
Record FetchResponse := mkFetchResponse {
  status : Z;
  json : Review;
}.

(** [await fetch(...)] either yields a response or rejects. *)
Inductive FetchOutcome :=
| Responded (response : FetchResponse)
| Rejected (reason : string).

Inductive Result (A : Type) :=
| Returned (a : A)
| Threw (message : string).
Arguments Returned {A} _.
Arguments Threw {A} _.

Definition reviews_url : string :=
  "http://localhost:" +:+ pretty JSON_SERVER_PORT +:+ "/reviews".

(** [Mutation.addReview]; [now] is [Date.now()] and [fetch] the global
    [fetch], both supplied by the environment. *)
Definition addReview (fetch : FetchRequest → FetchOutcome) (now : Z)
    (name message : string) : Resolver (Result Review) :=
  let newReview := mkNewReview name message now in
  match fetch (mkFetchRequest reviews_url "POST" "application/json" newReview) with
  | Rejected reason => ret (Threw reason)
  | Responded response =>
      if bool_decide (status response ≠ 201%Z ∧ status response ≠ 200%Z)
      then ret (Threw ("Backend failed to save data. Status: " +:+ pretty (status response)))
      else ret (Returned (json response))
  end.

(** ** The [/simulate-location] handler *)

Inductive ResponseBody :=
| ErrorBody (error : string)
| BusBody (bus : option Bus).

(** [res.status(s).json(body)], or an exception escaping the handler. *)
Inductive HttpResult :=
| Response (status : nat) (body : ResponseBody)
| HandlerThrew (message : string).

Section simulate.
(** The values of a request body that JavaScript's [String] converts, and
    the conversion; [simulate_location_any] below takes every value. *)
Context {JsValue : Type} (js_String : JsValue → string).

(** [body] is [req.body]: [None] when it is [undefined], in which case
    the destructuring [const { id } = req.body] throws; otherwise the
    value of its [id] property.  Whether the framework hands the handler a
    parsed body is not the handler's business ([start] mounts
    [express.json()] under [GRAPHQL_PATH] only), so both cases are
    inputs.  [random1] and [random2] are the two [Math.random()] draws. *)
Definition simulate_location (body : option JsValue) (random1 random2 : float)
    : Resolver HttpResult :=
  match body with
  | None => ret (HandlerThrew "TypeError")
  | Some id =>
      bus ← buses_find (js_String id);
      match bus with
      | None => ret (Response 404 (ErrorBody "bus not found"))
      | Some bus =>
          update_lat bus (λ x, x + (random1 - 0.5) * 0.001)%float;;
          update_lng bus (λ x, x + (random2 - 0.5) * 0.001)%float;;
          publish BUS_LOC_TOPIC (mkEvent bus);;
          snapshot ← serialize bus;
          ret (Response 200 (BusBody snapshot))
      end
  end.
End simulate.

Section simulate_any_body.
(** Every value a request body can hold, with JavaScript's [String]
    conversion: [None] where it throws a [TypeError] (an object whose
    [toString] and [valueOf] yield no primitive). *)
Context {JsValue : Type} (js_String : JsValue → option string).

(** The handler on every request.  [String(id)] is evaluated inside the
    callback of [buses.find], once per bus looked at: on an empty store it
    is never evaluated and the answer is 404; otherwise a conversion that
    throws escapes the handler before anything is written or published,
    and a conversion that returns leads to [simulate_location] on the
    converted id. *)
Definition simulate_location_any (body : option JsValue) (random1 random2 : float)
    : Resolver HttpResult :=
  match body with
  | None => ret (HandlerThrew "TypeError")
  | Some id => λ bs,
      match bs, js_String id with
      | [], _ => (Response 404 (ErrorBody "bus not found"), bs, [])
      | _ :: _, None => (HandlerThrew "TypeError", bs, [])
      | _ :: _, Some s => simulate_location (λ s : string, s) (Some s) random1 random2 bs
      end
  end.
End simulate_any_body.

(** ** Vocabulary of the statements *)

(** What a location write does to the store: the first bus with the id,
    if there is one, is replaced by its moved version. *)
Definition relocate (id : string) (move : Bus → Bus) (bs : list Bus) : list Bus :=
  match list_find (λ b, bus_id b = id) bs with
  | Some (i, b) => <[i := move b]> bs
  | None => bs
  end.

(** The bus at position [i] carries the id [String(i + 1)]. *)
Definition ids_follow_positions (bs : list Bus) : Prop :=
  ∀ i b, bs !! i = Some b → bus_id b = String_of_nat (S i).

(** ** The running server *)

(** The two pieces of module-level state: [let buses] and [const pubsub]. *)
Record Server := mkServer {
  buses : list Bus;
  pubsub : PubSub.t Event;
}.

Definition initial_server : Server := mkServer initial_buses PubSub.new.

(** The engine receives the resolver's [publish] calls in call order. *)
Definition forward (out : list PublishCall) (ps : PubSub.t Event) : PubSub.t Event :=
  foldl (λ acc c, PubSub.publish c.1 c.2 acc) ps out.

Definition run {A} (m : Resolver A) (sv : Server) : A * Server :=
  let '(a, bs, out) := m (buses sv) in
  (a, mkServer bs (forward out (pubsub sv))).

(** [Subscription.busLocationUpdated.subscribe]:
    [() => pubsub.asyncIterator(BUS_LOC_TOPIC)]. *)
Definition subscribe_busLocationUpdated (sv : Server) : nat * Server :=
  let '(h, ps) := PubSub.subscribe BUS_LOC_TOPIC (pubsub sv) in
  (h, mkServer (buses sv) ps).

(** The session of subscription [h] ends. *)
Definition unsubscribe (h : nat) (sv : Server) : Server :=
  mkServer (buses sv) (PubSub.unsubscribe h (pubsub sv)).

(** The session of subscription [h] takes its buffered events and reads
    each one's bus, which is the store's object, as it is at that moment. *)
Definition drain (h : nat) (sv : Server) : list (option Bus) * Server :=
  let '(es, ps) := PubSub.drain h (pubsub sv) in
  (payload (buses sv) <$> es, mkServer (buses sv) ps).

Section requests.
Context {JsValue : Type} (js_String : JsValue → string).

(** What can reach the server, one request at a time.  The body of a
    [/simulate-location] request is absent or holds an id [String]
    converts; a request whose id [String] throws on changes nothing on
    the server, like one without a body ([simulate_location_any]). *)
Inductive Request :=
| ReqAddBus (number route : string) (capacity : option Z)
| ReqUpdateBusLocation (id : string) (lat lng : float)
| ReqAddReview (fetch : FetchRequest → FetchOutcome) (now : Z) (name message : string)
| ReqSimulateLocation (body : option JsValue) (random1 random2 : float)
| ReqSubscribe
| ReqUnsubscribe (h : nat)
| ReqDrain (h : nat).

Definition handle (r : Request) (sv : Server) : Server :=
  match r with
  | ReqAddBus number route capacity => (run (addBus number route capacity) sv).2
  | ReqUpdateBusLocation id lat lng => (run (updateBusLocation id lat lng) sv).2
  | ReqAddReview fetch now name message => (run (addReview fetch now name message) sv).2
  | ReqSimulateLocation body random1 random2 =>
      (run (simulate_location js_String body random1 random2) sv).2
  | ReqSubscribe => (subscribe_busLocationUpdated sv).2
  | ReqUnsubscribe h => unsubscribe h sv
  | ReqDrain h => (drain h sv).2
  end.

Definition handle_all (rs : list Request) (sv : Server) : Server :=
  foldl (λ acc r, handle r acc) sv rs.

(** Requests that write the coordinates of the bus with this id. *)
Definition moves (id : string) (r : Request) : Prop :=
  match r with
  | ReqUpdateBusLocation id' _ _ => id' = id
  | ReqSimulateLocation (Some v) _ _ => js_String v = id
  | _ => False
  end.
End requests.
Arguments Request : clear implicits.

(** The request bodies used in the examples: a JSON string or a
    non-negative integer in the [id] property. *)
Inductive JsId :=
| JsString (s : string)
| JsNumber (n : nat).

Definition JsId_String (v : JsId) : string :=
  match v with
  | JsString s => s
  | JsNumber n => pretty n
  end.

(** ** Query resolvers *)

(** [Query.buses]: [() => buses]; the answer lists the buses as they are
    when the query runs. *)
Definition Query_buses : Resolver (list Bus) := λ bs, (bs, bs, []).

(** ** Requests and what they publish *)

Section request_effects.
Context {JsValue : Type} (js_String : JsValue → string).

(** The [pubsub.publish] calls the handler of a request makes on the
    store [bs]; subscriptions, their end and draining go to the engine
    directly and publish nothing. *)
Definition emitted (req : Request JsValue) (bs : list Bus) : list PublishCall :=
  match req with
  | ReqAddBus number route capacity => published (addBus number route capacity bs)
  | ReqUpdateBusLocation id lat lng => published (updateBusLocation id lat lng bs)
  | ReqAddReview fetch now name message => published (addReview fetch now name message bs)
  | ReqSimulateLocation body random1 random2 =>
      published (simulate_location js_String body random1 random2 bs)
  | ReqSubscribe | ReqUnsubscribe _ | ReqDrain _ => []
  end.

(** The bus a request is a location write for: the first bus carrying the
    id an [updateBusLocation] or a [/simulate-location] request names, if
    there is one.  Every other request writes no location. *)
Definition written (req : Request JsValue) (bs : list Bus) : option BusRef :=
  match req with
  | ReqUpdateBusLocation id _ _ => fst <$> list_find (λ b, bus_id b = id) bs
  | ReqSimulateLocation (Some v) _ _ =>
      fst <$> list_find (λ b, bus_id b = js_String v) bs
  | _ => None
  end.

(** One event per request that is a location write for a bus of the store
    as it is when the request arrives, in request order. *)
Fixpoint location_writes (reqs : list (Request JsValue)) (sv : Server) : list Event :=
  match reqs with
  | [] => []
  | req :: reqs =>
      option_list (mkEvent <$> written req (buses sv)) ++
      location_writes reqs (handle js_String req sv)
  end.

Definition is_addBus (req : Request JsValue) : bool :=
  match req with
  | ReqAddBus _ _ _ => true
  | _ => false
  end.

(** How many of the requests are [addBus] mutations. *)
Fixpoint count_addBus (reqs : list (Request JsValue)) : nat :=
  match reqs with
  | [] => 0
  | req :: reqs => (if is_addBus req then 1 else 0) + count_addBus reqs
  end.
End request_effects.

(** Two buses that differ in their coordinates at most. *)
Definition same_bus (b b' : Bus) : Prop :=
  bus_id b' = bus_id b ∧ number b' = number b ∧
  route b' = route b ∧ capacity b' = capacity b.

(** ** Sample states and inputs *)

(** The bus the server starts with. *)
Definition bus1 : Bus :=
  mkBus "1" "MH12AB1234" "A-B" (Some 40%Z) (mkCoordinates 19.07 72.87).

(** A fresh engine with one subscription, handle [0], on the location topic. *)
Definition one_subscriber : PubSub.t Event :=
  (PubSub.subscribe BUS_LOC_TOPIC PubSub.new).2.

(** The same with one event buffered. *)
Definition one_event : PubSub.t Event :=
  PubSub.publish BUS_LOC_TOPIC (mkEvent 0) one_subscriber.

(** Calls on both topics, with a second subscription coming and going. *)
Definition sample_calls : list (PubSub.Call Event) :=
  [ PubSub.CPublish BUS_LOC_TOPIC (mkEvent 0);
    PubSub.CSubscribe BUS_LOC_TOPIC;
    PubSub.CPublish "OTHER" (mkEvent 7);
    PubSub.CUnsubscribe 1;
    PubSub.CPublish BUS_LOC_TOPIC (mkEvent 1) ].

(** The server right after its first client subscribed. *)
Definition one_subscriber_server : Server := (subscribe_busLocationUpdated initial_server).2.

(** Requests none of which writes the coordinates of bus ["1"]. *)
Definition other_requests : list (Request JsId) :=
  [ ReqAddBus "MH14CD5678" "C-D" None;
    ReqUpdateBusLocation "2" 1 2;
    ReqSimulateLocation (Some (JsString "2")) 0.75 0.25;
    ReqSimulateLocation None 0.75 0.25;
    ReqSubscribe ].

(** The store after one [addBus] on the initial store. *)
Definition two_buses : list Bus :=
  store (addBus "MH14CD5678" "C-D" None initial_buses).

(** Requests that leave subscription [0] alone. *)
Definition busy_requests : list (Request JsId) :=
  [ ReqUpdateBusLocation "1" 10 20;
    ReqAddBus "MH14CD5678" "C-D" None;
    ReqUpdateBusLocation "9" 1 2;
    ReqSubscribe;
    ReqSimulateLocation (Some (JsNumber 2)) 0.75 0.25;
    ReqDrain 1;
    ReqUnsubscribe 1 ].

(** * Properties *)

(** ** The engine *)

Section engine_facts.
Context {E : Type}.
Implicit Types (ps : PubSub.t E) (topic : string) (h : nat) (e : E) (es : list E).

Lemma lookup_set_fold_alter {V} (f : V → V) (m : gmap nat V) (X : gset nat) h :
  set_fold (alter f) m X !! h = if decide (h ∈ X) then f <$> m !! h else m !! h.
Proof.
  pose (P := λ (r : gmap nat V) (Y : gset nat),
               ∀ h, r !! h = if decide (h ∈ Y) then f <$> m !! h else m !! h).
  revert h. change (P (set_fold (alter f) m X) X).
  apply set_fold_ind_L; unfold P.
  - intros h. case_decide; [set_solver | done].
  - intros x Y r Hx IH h. rewrite lookup_alter. case_decide as Hxh.
    + subst x. rewrite IH. rewrite decide_False by done.
      rewrite decide_True by set_solver. done.
    + rewrite IH. destruct (decide (h ∈ Y)).
      * rewrite decide_True by set_solver. done.
      * rewrite decide_False by set_solver. done.
Qed.

Lemma subscriptions_publish topic e ps h :
  PubSub.subscriptions (PubSub.publish topic e ps) !! h =
    if decide (h ∈ PubSub.subscribers topic ps)
    then PubSub.deliver e <$> PubSub.subscriptions ps !! h
    else PubSub.subscriptions ps !! h.
Proof. apply lookup_set_fold_alter. Qed.

Lemma subscribers_publish topic topic' e ps :
  PubSub.subscribers topic' (PubSub.publish topic e ps) = PubSub.subscribers topic' ps.
Proof. done. Qed.

Lemma channel_publish_registered topic e ps h :
  h ∈ PubSub.subscribers topic ps →
  is_Some (PubSub.subscriptions ps !! h) →
  PubSub.channel h (PubSub.publish topic e ps) = PubSub.channel h ps ++ [e].
Proof.
  intros Hh [s Hs]. unfold PubSub.channel.
  rewrite subscriptions_publish, decide_True, Hs by done. done.
Qed.

Lemma channel_publish_unregistered topic e ps h :
  h ∉ PubSub.subscribers topic ps →
  PubSub.channel h (PubSub.publish topic e ps) = PubSub.channel h ps.
Proof.
  intros Hh. unfold PubSub.channel.
  by rewrite subscriptions_publish, decide_False.
Qed.

Lemma is_Some_subscriptions_publish topic e ps h :
  is_Some (PubSub.subscriptions (PubSub.publish topic e ps) !! h) ↔
  is_Some (PubSub.subscriptions ps !! h).
Proof.
  rewrite subscriptions_publish. case_decide; [|done].
  by rewrite fmap_is_Some.
Qed.

Lemma channel_publish_all topic es ps h :
  h ∈ PubSub.subscribers topic ps →
  is_Some (PubSub.subscriptions ps !! h) →
  PubSub.channel h (PubSub.publish_all topic es ps) = PubSub.channel h ps ++ es.
Proof.
  revert ps. induction es as [|e es IH]; intros ps Hh Hs; simpl.
  - by rewrite app_nil_r.
  - unfold PubSub.publish_all in *. rewrite IH.
    + rewrite channel_publish_registered by done. by rewrite <- app_assoc.
    + by rewrite subscribers_publish.
    + by apply is_Some_subscriptions_publish.
Qed.

Lemma publish_no_subscribers topic e ps :
  PubSub.subscribers topic ps = ∅ → PubSub.publish topic e ps = ps.
Proof.
  intros Hempty. unfold PubSub.publish. rewrite Hempty, set_fold_empty.
  by destruct ps.
Qed.

Lemma elem_of_subscribers_subscribe topic topic' ps h :
  h ∈ PubSub.subscribers topic' (PubSub.subscribe topic ps).2 ↔
  (topic' = topic ∧ h = PubSub.next_handle ps) ∨ h ∈ PubSub.subscribers topic' ps.
Proof.
  unfold PubSub.subscribers at 1. simpl.
  destruct (decide (topic = topic')) as [->|Hne].
  - rewrite lookup_insert_eq. simpl. set_solver.
  - rewrite lookup_insert_ne by done. fold (PubSub.subscribers topic' ps). naive_solver.
Qed.

Lemma elem_of_subscribers_unsubscribe topic ps h h' :
  h' ∈ PubSub.subscribers topic (PubSub.unsubscribe h ps) ↔
  h' ∈ PubSub.subscribers topic ps ∧
  ¬ (h' = h ∧ PubSub.sub_topic <$> PubSub.subscriptions ps !! h = Some topic).
Proof.
  unfold PubSub.unsubscribe.
  destruct (PubSub.subscriptions ps !! h) as [s|] eqn:Hs; simpl; [|naive_solver].
  unfold PubSub.subscribers. simpl. rewrite lookup_alter.
  case_decide as Ht; [|naive_solver]. subst topic.
  destruct (PubSub.registry ps !! PubSub.sub_topic s) as [X|]; simpl.
  - rewrite elem_of_difference, elem_of_singleton. naive_solver.
  - rewrite elem_of_empty. naive_solver.
Qed.

Lemma subscriptions_unsubscribe ps h :
  PubSub.subscriptions (PubSub.unsubscribe h ps) = PubSub.subscriptions ps.
Proof. unfold PubSub.unsubscribe. by destruct (_ !! _). Qed.

Lemma next_handle_unsubscribe ps h :
  PubSub.next_handle (PubSub.unsubscribe h ps) = PubSub.next_handle ps.
Proof. unfold PubSub.unsubscribe. by destruct (_ !! _). Qed.

Lemma channel_unsubscribe ps h h' :
  PubSub.channel h' (PubSub.unsubscribe h ps) = PubSub.channel h' ps.
Proof. unfold PubSub.channel. by rewrite subscriptions_unsubscribe. Qed.

Lemma channel_subscribe_ne topic ps h :
  h ≠ PubSub.next_handle ps →
  PubSub.channel h (PubSub.subscribe topic ps).2 = PubSub.channel h ps.
Proof. intros Hne. unfold PubSub.channel. simpl. by rewrite lookup_insert_ne. Qed.

(** *** Well-formedness is an invariant of the registry *)

Lemma wf_new : PubSub.wf (PubSub.new (E := E)).
Proof.
  split.
  - intros topic h. unfold PubSub.subscribers. simpl. rewrite lookup_empty. set_solver.
  - intros h [s Hs]. simpl in Hs. by rewrite lookup_empty in Hs.
Qed.

Lemma wf_subscribe topic ps : PubSub.wf ps → PubSub.wf (PubSub.subscribe topic ps).2.
Proof.
  intros [Hreg Hiss]. split.
  - intros topic' h [[-> ->]|Hold]%elem_of_subscribers_subscribe; simpl.
    + rewrite lookup_insert_eq. eauto.
    + destruct (Hreg _ _ Hold) as (s & Hs & Htopic).
      assert (h < PubSub.next_handle ps) by eauto.
      rewrite lookup_insert_ne by lia. eauto.
  - intros h. simpl. rewrite lookup_insert. case_decide; [lia|].
    intros Hs. apply Hiss in Hs. lia.
Qed.

Lemma wf_publish topic e ps : PubSub.wf ps → PubSub.wf (PubSub.publish topic e ps).
Proof.
  intros [Hreg Hiss]. split.
  - intros topic' h Hh. rewrite subscribers_publish in Hh.
    destruct (Hreg _ _ Hh) as (s & Hs & Htopic).
    rewrite subscriptions_publish, Hs. case_decide; simpl; eauto.
  - intros h Hs. apply is_Some_subscriptions_publish in Hs. by apply Hiss.
Qed.

Lemma wf_unsubscribe h ps : PubSub.wf ps → PubSub.wf (PubSub.unsubscribe h ps).
Proof.
  intros [Hreg Hiss]. split.
  - intros topic h' [Hh' _]%elem_of_subscribers_unsubscribe.
    rewrite subscriptions_unsubscribe. eauto.
  - intros h'. rewrite subscriptions_unsubscribe, next_handle_unsubscribe. apply Hiss.
Qed.

Lemma wf_call c ps : PubSub.wf ps → PubSub.wf (PubSub.call c ps).
Proof.
  intros Hwf. destruct c as [topic|topic e|h]; simpl.
  - by apply wf_subscribe.
  - by apply wf_publish.
  - by apply wf_unsubscribe.
Qed.

Lemma wf_calls cs ps : PubSub.wf ps → PubSub.wf (PubSub.calls cs ps).
Proof.
  revert ps. induction cs as [|c cs IH]; intros ps Hwf; [done|].
  apply IH. by apply wf_call.
Qed.

(** Every registry the calls can build is well-formed. *)
Lemma wf_reachable cs : PubSub.wf (PubSub.calls cs (PubSub.new (E := E))).
Proof. apply wf_calls, wf_new. Qed.

Lemma wf_drain h ps : PubSub.wf ps → PubSub.wf (PubSub.drain h ps).2.
Proof.
  intros [Hreg Hiss]. split; simpl.
  - intros topic h' Hh'. destruct (Hreg _ _ Hh') as (s & Hs & Htopic).
    rewrite lookup_alter. case_decide as Heq; [|by eauto].
    subst h'. rewrite Hs. simpl. eauto.
  - intros h'. rewrite lookup_alter. case_decide as Heq; [|by apply Hiss].
    subst h'. rewrite fmap_is_Some. apply Hiss.
Qed.
End engine_facts.

(** *** Delivery *)

Section delivery.
Context {E : Type}.
Implicit Types (ps : PubSub.t E) (topic : string) (h : nat) (e : E) (es : list E).

(** One call, seen from a subscription that stays registered. *)
Lemma channel_call_registered topic h (c : PubSub.Call E) ps :
  PubSub.wf ps →
  h ∈ PubSub.subscribers topic ps →
  c ≠ PubSub.CUnsubscribe h →
  h ∈ PubSub.subscribers topic (PubSub.call c ps) ∧
  PubSub.channel h (PubSub.call c ps) =
    PubSub.channel h ps ++ PubSub.published_on topic [c].
Proof.
  intros Hwf Hh Hc.
  destruct (PubSub.wf_registered _ Hwf _ _ Hh) as (s & Hs & Htopic).
  assert (h < PubSub.next_handle ps) as Hlt by (apply (PubSub.wf_issued _ Hwf); eauto).
  destruct c as [topic'|topic' e|h']; simpl.
  - split.
    + apply elem_of_subscribers_subscribe. by right.
    + rewrite app_nil_r. apply channel_subscribe_ne. lia.
  - split; [done|]. case_decide as Ht.
    + subst topic'. apply channel_publish_registered; eauto.
    + rewrite app_nil_r. apply channel_publish_unregistered.
      intros Hh'. destruct (PubSub.wf_registered _ Hwf _ _ Hh') as (s' & Hs' & Htopic').
      congruence.
  - split.
    + apply elem_of_subscribers_unsubscribe. split; [done|].
      intros [-> _]. congruence.
    + by rewrite app_nil_r, channel_unsubscribe.
Qed.

(** One call, seen from a subscription that is registered nowhere. *)
Lemma channel_call_detached h (c : PubSub.Call E) ps :
  (∀ topic, h ∉ PubSub.subscribers topic ps) →
  h < PubSub.next_handle ps →
  (∀ topic, h ∉ PubSub.subscribers topic (PubSub.call c ps)) ∧
  h < PubSub.next_handle (PubSub.call c ps) ∧
  PubSub.channel h (PubSub.call c ps) = PubSub.channel h ps.
Proof.
  intros Hout Hlt. destruct c as [topic'|topic' e|h']; simpl.
  - split_and!; [|lia|apply channel_subscribe_ne; lia].
    intros topic [[_ ?]|?]%elem_of_subscribers_subscribe; [lia|by eapply Hout].
  - split_and!; [done..|]. by apply channel_publish_unregistered.
  - split_and!.
    + intros topic [? _]%elem_of_subscribers_unsubscribe. by eapply Hout.
    + by rewrite next_handle_unsubscribe.
    + apply channel_unsubscribe.
Qed.

Lemma unsubscribe_detaches h ps :
  PubSub.wf ps → ∀ topic, h ∉ PubSub.subscribers topic (PubSub.unsubscribe h ps).
Proof.
  intros Hwf topic [Hh Hnot]%elem_of_subscribers_unsubscribe. apply Hnot.
  destruct (PubSub.wf_registered _ Hwf _ _ Hh) as (s & -> & <-). done.
Qed.

Lemma unsubscribe_idemp h ps :
  PubSub.unsubscribe h (PubSub.unsubscribe h ps) = PubSub.unsubscribe h ps.
Proof.
  unfold PubSub.unsubscribe at 1. rewrite subscriptions_unsubscribe.
  destruct (PubSub.subscriptions ps !! h) as [s|] eqn:Hs; [|done].
  unfold PubSub.unsubscribe. rewrite Hs. simpl. f_equal.
  apply map_eq. intros topic. rewrite !lookup_alter. case_decide; [|done].
  rewrite decide_True by done.
  destruct (PubSub.registry ps !! PubSub.sub_topic s) as [X|]; simpl; [|done].
  f_equal. set_solver.
Qed.

(** C1. Per-subscriber FIFO without drops: in a well-formed registry
    (every registry the calls can build is one, [wf_reachable]), through
    any sequence of registry calls during which subscription [h] stays
    registered under [topic] (nobody unsubscribes it), draining [h] yields
    what was buffered before followed by exactly the events published on
    [topic], in publish-call order. *)
Theorem C1_per_subscriber_fifo topic h (cs : list (PubSub.Call E)) ps :
  PubSub.wf ps →
  h ∈ PubSub.subscribers topic ps →
  PubSub.CUnsubscribe h ∉ cs →
  (PubSub.drain h (PubSub.calls cs ps)).1 =
    PubSub.channel h ps ++ PubSub.published_on topic cs.
Proof.
  simpl. revert ps. induction cs as [|c cs IH]; intros ps Hwf Hh Hcs.
  - simpl. by rewrite app_nil_r.
  - apply not_elem_of_cons in Hcs as [Hc Hcs].
    destruct (channel_call_registered topic h c ps) as [Hh' Hch]; [done..|].
    change (PubSub.calls (c :: cs) ps) with (PubSub.calls cs (PubSub.call c ps)).
    rewrite IH by auto using wf_call. rewrite Hch, <- app_assoc. f_equal.
    unfold PubSub.published_on.
    destruct c as [topic'|topic' e|h']; simpl; [done| |done]. by case_decide.
Qed.

(** C2. [publish] appends the event to the channel of every subscription
    registered under the topic and to no other channel; in the spec's
    scenario both [S1] and [S2] receive [E1], and after [S1] is
    unsubscribed [E2] reaches [S2] only, whose channel reads [E1; E2]. *)
Theorem C2_publish_fan_out topic (e1 e2 : E) ps :
  (∀ h, PubSub.channel h (PubSub.publish topic e1 ps) =
        if decide (h ∈ PubSub.subscribers topic ps ∧
                   is_Some (PubSub.subscriptions ps !! h))
        then PubSub.channel h ps ++ [e1]
        else PubSub.channel h ps) ∧
  let '(s1, ps1) := PubSub.subscribe topic ps in
  let '(s2, ps2) := PubSub.subscribe topic ps1 in
  let ps3 := PubSub.publish topic e1 ps2 in
  let ps4 := PubSub.unsubscribe s1 ps3 in
  let ps5 := PubSub.publish topic e2 ps4 in
  PubSub.channel s1 ps3 = [e1] ∧ PubSub.channel s2 ps3 = [e1] ∧
  PubSub.channel s1 ps5 = [e1] ∧ PubSub.channel s2 ps5 = [e1; e2].
Proof.
  split.
  - intros h. case_decide as Hreg.
    + destruct Hreg. by apply channel_publish_registered.
    + destruct (decide (h ∈ PubSub.subscribers topic ps)) as [Hin|Hout].
      * unfold PubSub.channel. rewrite subscriptions_publish, decide_True by done.
        destruct (PubSub.subscriptions ps !! h) eqn:Hs; [|done].
        destruct Hreg. eauto.
      * by apply channel_publish_unregistered.
  - change (let n := PubSub.next_handle ps in
            let ps1 := (PubSub.subscribe topic ps).2 in
            let ps2 := (PubSub.subscribe topic ps1).2 in
            let ps3 := PubSub.publish topic e1 ps2 in
            let ps4 := PubSub.unsubscribe n ps3 in
            let ps5 := PubSub.publish topic e2 ps4 in
            PubSub.channel n ps3 = [e1] ∧ PubSub.channel (S n) ps3 = [e1] ∧
            PubSub.channel n ps5 = [e1] ∧ PubSub.channel (S n) ps5 = [e1; e2]).
    intros n ps1 ps2 ps3 ps4 ps5.
    assert (n ∈ PubSub.subscribers topic ps2) as Hn.
    { apply elem_of_subscribers_subscribe. right.
      apply elem_of_subscribers_subscribe. by left. }
    assert (S n ∈ PubSub.subscribers topic ps2) as HSn.
    { apply elem_of_subscribers_subscribe. by left. }
    assert (PubSub.subscriptions ps2 !! n = Some (PubSub.mkSubscription topic [])) as Hsn.
    { simpl. rewrite lookup_insert_ne by lia. by rewrite lookup_insert_eq. }
    assert (PubSub.subscriptions ps2 !! S n = Some (PubSub.mkSubscription topic [])) as HsSn.
    { simpl. by rewrite lookup_insert_eq. }
    assert (PubSub.channel n ps3 = [e1]) as Hc1.
    { unfold ps3. rewrite channel_publish_registered by eauto.
      unfold PubSub.channel. by rewrite Hsn. }
    assert (PubSub.channel (S n) ps3 = [e1]) as Hc2.
    { unfold ps3. rewrite channel_publish_registered by eauto.
      unfold PubSub.channel. by rewrite HsSn. }
    assert (PubSub.subscriptions ps3 !! n = Some (PubSub.mkSubscription topic [e1])) as Hs3.
    { unfold ps3. rewrite subscriptions_publish, decide_True, Hsn by done. done. }
    split_and!; [done..| |].
    + unfold ps5. rewrite channel_publish_unregistered.
      * unfold ps4. by rewrite channel_unsubscribe.
      * unfold ps4. intros [_ Hnot]%elem_of_subscribers_unsubscribe. apply Hnot.
        by rewrite Hs3.
    + unfold ps5. rewrite channel_publish_registered.
      * unfold ps4. by rewrite channel_unsubscribe, Hc2.
      * unfold ps4. apply elem_of_subscribers_unsubscribe. split; [done|].
        intros [? _]. lia.
      * unfold ps4. rewrite subscriptions_unsubscribe. unfold ps3.
        apply is_Some_subscriptions_publish. eauto.
Qed.

(** C3. [unsubscribe] is idempotent, and once it has returned for a
    handle [h] issued earlier, no later call sequence (publishes on any
    topic, new subscriptions, other removals) changes the channel of the
    removed subscription: nothing is delivered to it any more. *)
Theorem C3_unsubscribe_final h (cs : list (PubSub.Call E)) ps :
  PubSub.wf ps →
  h < PubSub.next_handle ps →
  PubSub.unsubscribe h (PubSub.unsubscribe h ps) = PubSub.unsubscribe h ps ∧
  PubSub.channel h (PubSub.calls cs (PubSub.unsubscribe h ps)) = PubSub.channel h ps.
Proof.
  intros Hwf Hlt. split; [apply unsubscribe_idemp|].
  rewrite <- (channel_unsubscribe ps h h).
  assert (∀ topic, h ∉ PubSub.subscribers topic (PubSub.unsubscribe h ps)) as Hout
    by by apply unsubscribe_detaches.
  rewrite <- (next_handle_unsubscribe ps h) in Hlt.
  generalize dependent (PubSub.unsubscribe h ps). clear ps Hwf.
  induction cs as [|c cs IH]; intros ps Hlt Hout; [done|].
  destruct (channel_call_detached h c ps) as (Hout' & Hlt' & Hch); [done..|].
  change (PubSub.calls (c :: cs) ps) with (PubSub.calls cs (PubSub.call c ps)).
  by rewrite IH.
Qed.
End delivery.

(** ** The resolvers *)

Section resolver_facts.
Implicit Types (bs : list Bus) (b : Bus) (i : BusRef) (id : string).

Lemma buses_find_Some id bs i b :
  list_find (λ b, bus_id b = id) bs = Some (i, b) →
  buses_find id bs = (Some i, bs, []).
Proof. intros Hfind. unfold buses_find. by rewrite Hfind. Qed.

Lemma buses_find_None id bs :
  (∀ b, b ∈ bs → bus_id b ≠ id) →
  buses_find id bs = (None, bs, []).
Proof.
  intros Hnone. unfold buses_find.
  assert (list_find (λ b, bus_id b = id) bs = None) as ->; [|done].
  apply list_find_None, Forall_forall. auto.
Qed.

(** The two assignments to [bus.coords] amount to one update of the
    object. *)
Lemma update_coords i (f g : float → float) bs :
  alter (λ b, with_lng (g (lng (coords b))) b) i
    (alter (λ b, with_lat (f (lat (coords b))) b) i bs) =
  alter (λ b, at_coords (f (lat (coords b))) (g (lng (coords b))) b) i bs.
Proof. rewrite list_alter_alter_eq. by apply list_alter_ext. Qed.

Lemma updateBusLocation_found id x y bs i b :
  list_find (λ b, bus_id b = id) bs = Some (i, b) →
  updateBusLocation id x y bs =
    (Some i, <[i := at_coords x y b]> bs, [(BUS_LOC_TOPIC, mkEvent i)]).
Proof.
  intros Hfind. unfold updateBusLocation.
  unfold mbind, resolver_bind, bind. rewrite (buses_find_Some _ _ _ _ Hfind).
  simpl. pose proof (update_coords i (λ _, x) (λ _, y) bs) as Hupd.
  simpl in Hupd. rewrite Hupd. do 2 f_equal.
  rewrite list_insert_alter. apply list_alter_ext; [|done].
  apply list_find_Some in Hfind as (Hi & _). intros b' Hb'. congruence.
Qed.

Lemma updateBusLocation_missing id x y bs :
  (∀ b, b ∈ bs → bus_id b ≠ id) →
  updateBusLocation id x y bs = (None, bs, []).
Proof.
  intros Hnone. unfold updateBusLocation.
  unfold mbind, resolver_bind, bind. by rewrite buses_find_None.
Qed.

Context {JsValue : Type} (js_String : JsValue → string).

Lemma simulate_location_found v r1 r2 bs i b :
  list_find (λ b, bus_id b = js_String v) bs = Some (i, b) →
  simulate_location js_String (Some v) r1 r2 bs =
    (Response 200 (BusBody (Some (jitter r1 r2 b))),
     <[i := jitter r1 r2 b]> bs,
     [(BUS_LOC_TOPIC, mkEvent i)]).
Proof.
  intros Hfind. unfold simulate_location.
  unfold mbind, resolver_bind, bind. rewrite (buses_find_Some _ _ _ _ Hfind).
  simpl.
  pose proof (update_coords i (λ x, x + (r1 - 0.5) * 0.001)%float
                (λ x, x + (r2 - 0.5) * 0.001)%float bs) as Hupd.
  simpl in Hupd. rewrite Hupd. clear Hupd.
  apply list_find_Some in Hfind as (Hi & _).
  assert (alter (λ b, at_coords (lat (coords b) + (r1 - 0.5) * 0.001)
                        (lng (coords b) + (r2 - 0.5) * 0.001) b) i bs =
          <[i := jitter r1 r2 b]> bs) as ->.
  { rewrite list_insert_alter. apply list_alter_ext; [|done].
    intros b' Hb'. by assert (b' = b) as -> by congruence. }
  unfold deref. rewrite list_lookup_insert_eq by by eapply lookup_lt_Some.
  done.
Qed.

Lemma simulate_location_missing v r1 r2 bs :
  (∀ b, b ∈ bs → bus_id b ≠ js_String v) →
  simulate_location js_String (Some v) r1 r2 bs =
    (Response 404 (ErrorBody "bus not found"), bs, []).
Proof.
  intros Hnone. unfold simulate_location.
  unfold mbind, resolver_bind, bind. by rewrite buses_find_None.
Qed.
End resolver_facts.

Section mutation_claims.
Context {JsValue : Type} (js_String : JsValue → string).
Implicit Types (bs : list Bus) (b : Bus) (i : BusRef) (id : string) (sv : Server).

Lemma run_no_publish {A} (m : Resolver A) (a : A) sv :
  m (buses sv) = (a, buses sv, []) → run m sv = (a, sv).
Proof. intros Hm. unfold run. rewrite Hm. by destruct sv. Qed.

(** C4. Publishing on a topic without registered subscriptions returns
    normally and leaves the whole server state, registry and bus store,
    as it was. *)
Theorem C4_publish_without_subscribers topic (e : Event) sv :
  PubSub.subscribers topic (pubsub sv) = ∅ →
  run (publish topic e) sv = (tt, sv).
Proof.
  intros Hempty. unfold run, publish, forward. simpl.
  rewrite publish_no_subscribers by done. by destruct sv.
Qed.

(** C5, as amended. A location change that finds its bus, through
    [updateBusLocation] or [/simulate-location], makes exactly one
    [publish] call, on [BUS_LOCATION], whose payload is the bus just
    written, so that it shows the new coordinates; [addBus] commits its
    change and publishes nothing. *)
Theorem C5_one_publish_per_location_change id (v : JsValue) x y r1 r2
    number' route' capacity' bs i b :
  list_find (λ b, bus_id b = id) bs = Some (i, b) →
  js_String v = id →
  let upd := updateBusLocation id x y bs in
  let sim := simulate_location js_String (Some v) r1 r2 bs in
  published upd = [(BUS_LOC_TOPIC, mkEvent i)] ∧
  payload (store upd) (mkEvent i) = Some (at_coords x y b) ∧
  published sim = [(BUS_LOC_TOPIC, mkEvent i)] ∧
  payload (store sim) (mkEvent i) = Some (jitter r1 r2 b) ∧
  published (addBus number' route' capacity' bs) = [].
Proof.
  intros Hfind <- upd sim. subst upd sim.
  rewrite (updateBusLocation_found _ x y _ _ _ Hfind).
  rewrite (simulate_location_found js_String v r1 r2 _ _ _ Hfind).
  apply list_find_Some in Hfind as (Hi & _).
  apply lookup_lt_Some in Hi.
  unfold published, store, payload, deref. simpl.
  by rewrite !list_lookup_insert_eq.
Qed.

(** C6. For an id no bus of the store has, [updateBusLocation] returns
    [null] and [/simulate-location] answers 404, neither makes a
    [publish] call nor touches the store, and so the server state,
    every subscriber's channel included, is what it was. *)
Theorem C6_no_publish_when_bus_missing id (v : JsValue) x y r1 r2 sv :
  (∀ b, b ∈ buses sv → bus_id b ≠ id) →
  js_String v = id →
  updateBusLocation id x y (buses sv) = (None, buses sv, []) ∧
  simulate_location js_String (Some v) r1 r2 (buses sv) =
    (Response 404 (ErrorBody "bus not found"), buses sv, []) ∧
  run (updateBusLocation id x y) sv = (None, sv) ∧
  run (simulate_location js_String (Some v) r1 r2) sv =
    (Response 404 (ErrorBody "bus not found"), sv).
Proof.
  intros Hnone <-.
  pose proof (updateBusLocation_missing _ x y _ Hnone) as Hupd.
  pose proof (simulate_location_missing js_String v r1 r2 _ Hnone) as Hsim.
  split_and!; [done..| |]; by apply run_no_publish.
Qed.

(** C8. When the store has a bus with the given id, [updateBusLocation]
    returns the first such bus, sets its [coords.lat] and [coords.lng] to
    the arguments, keeps its id, number, route and capacity, and leaves
    the length of the store and every other bus unchanged. *)
Theorem C8_updateBusLocation_frame id x y bs i b :
  list_find (λ b, bus_id b = id) bs = Some (i, b) →
  let r := updateBusLocation id x y bs in
  result r = Some i ∧
  length (store r) = length bs ∧
  (∀ j, j ≠ i → store r !! j = bs !! j) ∧
  ∃ b', deref (store r) i = Some b' ∧
        bus_id b' = bus_id b ∧ number b' = number b ∧
        route b' = route b ∧ capacity b' = capacity b ∧
        coords b' = mkCoordinates x y.
Proof.
  intros Hfind r. subst r. rewrite (updateBusLocation_found _ x y _ _ _ Hfind).
  apply list_find_Some in Hfind as (Hi & _).
  apply lookup_lt_Some in Hi.
  unfold result, store, deref. simpl. split_and!.
  - done.
  - apply length_insert.
  - intros j Hj. by apply list_lookup_insert_ne.
  - exists (at_coords x y b). by rewrite list_lookup_insert_eq.
Qed.

(** C10. Given the record store's response to the POST, [addReview]
    throws exactly when the status is neither 200 nor 201 and otherwise
    returns the document of the response; when [fetch] itself rejects,
    the rejection propagates.  In every case no event is published and
    the bus store is untouched. *)
Theorem C10_addReview fetch now name message bs :
  let r := addReview fetch now name message bs in
  match fetch (mkFetchRequest reviews_url "POST" "application/json"
                 (mkNewReview name message now)) with
  | Responded response =>
      ((∃ msg, result r = Threw msg) ↔
         (status response ≠ 200%Z ∧ status response ≠ 201%Z)) ∧
      ((status response = 200%Z ∨ status response = 201%Z) →
         result r = Returned (json response))
  | Rejected reason => result r = Threw reason
  end ∧
  published r = [] ∧ store r = bs.
Proof.
  intros r. subst r. unfold addReview.
  destruct (fetch _) as [response|reason]; [|done].
  case_bool_decide as Hstatus; unfold result, published, store; simpl.
  - split_and!; [|lia|done..]. split; [lia|eauto].
  - split_and!; [|done..]. split; [|lia]. by intros [msg ?].
Qed.
End mutation_claims.

(** ** Sequences of requests *)

Section request_facts.
Context {JsValue : Type} (js_String : JsValue → string).
Implicit Types (bs : list Bus) (b : Bus) (i : BusRef) (id : string) (sv : Server).
Implicit Types (req : Request JsValue) (reqs : list (Request JsValue)).

Lemma buses_run {A} (m : Resolver A) sv : buses (run m sv).2 = store (m (buses sv)).
Proof. unfold run, store. by destruct (m (buses sv)) as [[a bs] out]. Qed.

Lemma list_find_id_None id bs :
  list_find (λ b, bus_id b = id) bs = None → ∀ b, b ∈ bs → bus_id b ≠ id.
Proof.
  intros Hnone%list_find_None b Hb. rewrite Forall_forall in Hnone. by apply Hnone.
Qed.

Lemma store_updateBusLocation id x y bs :
  store (updateBusLocation id x y bs) = relocate id (at_coords x y) bs.
Proof.
  unfold relocate. destruct (list_find _ bs) as [[i b]|] eqn:Hfind.
  - by rewrite (updateBusLocation_found _ x y _ _ _ Hfind).
  - rewrite updateBusLocation_missing; [done|]. by apply list_find_id_None.
Qed.

Lemma store_simulate_location v r1 r2 bs :
  store (simulate_location js_String (Some v) r1 r2 bs) =
    relocate (js_String v) (jitter r1 r2) bs.
Proof.
  unfold relocate. destruct (list_find _ bs) as [[i b]|] eqn:Hfind.
  - by rewrite (simulate_location_found js_String v r1 r2 _ _ _ Hfind).
  - rewrite simulate_location_missing; [done|]. by apply list_find_id_None.
Qed.

Lemma store_addReview fetch now name message bs :
  store (addReview fetch now name message bs) = bs.
Proof.
  unfold addReview. destruct (fetch _); [|done]. by case_bool_decide.
Qed.

(** The store after one request. *)
Lemma buses_handle req sv :
  buses (handle js_String req sv) =
    match req with
    | ReqAddBus number' route' capacity' =>
        buses sv ++ [mkBus (String_of_nat (length (buses sv) + 1))
                       number' route' capacity' (mkCoordinates 0 0)]
    | ReqUpdateBusLocation id x y => relocate id (at_coords x y) (buses sv)
    | ReqSimulateLocation (Some v) r1 r2 =>
        relocate (js_String v) (jitter r1 r2) (buses sv)
    | _ => buses sv
    end.
Proof.
  destruct req as [number' route' capacity'|id x y|fetch now name message
                |[v|] r1 r2| |h|h]; simpl; rewrite ?buses_run; try done.
  - apply store_updateBusLocation.
  - apply store_addReview.
  - apply store_simulate_location.
Qed.

Lemma list_find_relocate id id' (move : Bus → Bus) bs i b :
  (∀ b, bus_id (move b) = bus_id b) →
  list_find (λ b, bus_id b = id) bs = Some (i, b) →
  list_find (λ b, bus_id b = id) (relocate id' move bs) =
    Some (i, if decide (id' = id) then move b else b).
Proof.
  intros Hmove Hfind. unfold relocate.
  destruct (decide (id' = id)) as [->|Hne].
  - rewrite Hfind. apply list_find_Some in Hfind as (Hi & Hb & Hfirst).
    apply list_find_Some. split_and!.
    + apply list_lookup_insert_eq. by eapply lookup_lt_Some.
    + by rewrite Hmove.
    + intros j b' Hj Hlt. rewrite list_lookup_insert_ne in Hj by lia. eauto.
  - destruct (list_find (λ b, bus_id b = id') bs) as [[j bj]|] eqn:Hfind'; [|done].
    apply list_find_Some in Hfind as (Hi & Hb & Hfirst).
    apply list_find_Some in Hfind' as (Hj & Hbj & _).
    assert (j ≠ i) by (intros ->; congruence).
    apply list_find_Some. split_and!.
    + by rewrite list_lookup_insert_ne.
    + done.
    + intros k b' Hk Hlt. destruct (decide (j = k)) as [->|].
      * rewrite list_lookup_insert_eq in Hk by by eapply lookup_lt_Some.
        injection Hk as <-. rewrite Hmove. congruence.
      * rewrite list_lookup_insert_ne in Hk by done. eauto.
Qed.

(** A request that does not write the coordinates of the bus with id
    [id] leaves that bus, and its place in the store, as they are. *)
Lemma handle_keeps_bus id req sv i b :
  ¬ moves js_String id req →
  list_find (λ b, bus_id b = id) (buses sv) = Some (i, b) →
  list_find (λ b, bus_id b = id) (buses (handle js_String req sv)) = Some (i, b).
Proof.
  intros Hreq Hfind. rewrite buses_handle.
  destruct req as [number' route' capacity'|id' x y|fetch now name message
                |[v|] r1 r2| |h|h]; simpl in Hreq; try done.
  - by apply list_find_app_l.
  - rewrite (list_find_relocate id id' _ _ i b); [|done..].
    by rewrite decide_False.
  - rewrite (list_find_relocate id _ _ _ i b); [|done..].
    by rewrite decide_False.
Qed.

Lemma handle_all_keeps_bus id reqs sv i b :
  Forall (λ req, ¬ moves js_String id req) reqs →
  list_find (λ b, bus_id b = id) (buses sv) = Some (i, b) →
  list_find (λ b, bus_id b = id) (buses (handle_all js_String reqs sv)) = Some (i, b).
Proof.
  intros Hreqs. revert sv. induction Hreqs as [|req reqs Hreq Hreqs IH]; intros sv Hfind; [done|].
  apply IH. by apply handle_keeps_bus.
Qed.

(** *** Ids follow positions *)

Lemma ids_follow_positions_relocate id (move : Bus → Bus) bs :
  (∀ b, bus_id (move b) = bus_id b) →
  ids_follow_positions bs → ids_follow_positions (relocate id move bs).
Proof.
  intros Hmove Hids. unfold relocate.
  destruct (list_find _ bs) as [[j bj]|] eqn:Hfind; [|done].
  apply list_find_Some in Hfind as (Hj & _).
  intros i b. destruct (decide (j = i)) as [->|].
  - rewrite list_lookup_insert_eq by by eapply lookup_lt_Some.
    intros [= <-]. rewrite Hmove. by apply Hids.
  - rewrite list_lookup_insert_ne by done. apply Hids.
Qed.

Lemma ids_follow_positions_handle req sv :
  ids_follow_positions (buses sv) →
  ids_follow_positions (buses (handle js_String req sv)).
Proof.
  intros Hids. rewrite buses_handle.
  destruct req as [number' route' capacity'|id' x y|fetch now name message
                |[v|] r1 r2| |h|h]; try done.
  - intros i b [Hold|[Hlen Hnew]]%lookup_app_Some; [by apply Hids|].
    apply list_lookup_singleton_Some in Hnew as [Hi <-]. simpl.
    f_equal. lia.
  - by apply ids_follow_positions_relocate.
  - by apply ids_follow_positions_relocate.
Qed.

Lemma ids_follow_positions_handle_all reqs sv :
  ids_follow_positions (buses sv) →
  ids_follow_positions (buses (handle_all js_String reqs sv)).
Proof.
  revert sv. induction reqs as [|req reqs IH]; intros sv Hids; [done|].
  apply IH. by apply ids_follow_positions_handle.
Qed.

(** The registry of the running server is always well-formed, so the
    statements about the engine apply to it. *)
Lemma wf_forward out (ps : PubSub.t Event) : PubSub.wf ps → PubSub.wf (forward out ps).
Proof.
  revert ps. induction out as [|c out IH]; intros ps Hwf; [done|].
  apply IH. by apply wf_publish.
Qed.

Lemma wf_handle req sv : PubSub.wf (pubsub sv) → PubSub.wf (pubsub (handle js_String req sv)).
Proof.
  intros Hwf.
  assert (∀ A (m : Resolver A), PubSub.wf (pubsub (run m sv).2)) as Hrun.
  { intros A m. unfold run. destruct (m (buses sv)) as [[a bs] out]. by apply wf_forward. }
  destruct req as [number' route' capacity'|id x y|fetch now name message
                  |body r1 r2| |h|h]; cbn [handle]; try apply Hrun.
  - by apply wf_subscribe.
  - by apply wf_unsubscribe.
  - by apply wf_drain.
Qed.

Lemma wf_server_reachable reqs :
  PubSub.wf (pubsub (handle_all js_String reqs initial_server)).
Proof.
  assert (∀ sv, PubSub.wf (pubsub sv) →
                PubSub.wf (pubsub (handle_all js_String reqs sv))) as Hall.
  { induction reqs as [|req reqs IH]; intros sv Hwf; [done|].
    apply IH. by apply wf_handle. }
  apply Hall, wf_new.
Qed.

Lemma ids_follow_positions_NoDup bs :
  ids_follow_positions bs → NoDup (bus_id <$> bs).
Proof.
  intros Hids. apply NoDup_alt. intros i j id.
  rewrite !list_lookup_fmap.
  intros (bi & Hbi & ->)%fmap_Some (bj & Hbj & Heq)%fmap_Some.
  rewrite (Hids _ _ Hbi), (Hids _ _ Hbj) in Heq.
  apply (inj pretty) in Heq. lia.
Qed.
End request_facts.

Section request_claims.
Context {JsValue : Type} (js_String : JsValue → string).
Implicit Types (bs : list Bus) (b : Bus) (i : BusRef) (id : string) (sv : Server).
Implicit Types (reqs : list (Request JsValue)).

(** C9. [addBus] appends one bus whose id is the decimal string of the
    new length and whose coordinates are [(0, 0)], returns it, and leaves
    the buses already stored as they were; from the initial one-bus store
    every sequence of requests keeps the ids pairwise distinct. *)
Theorem C9_addBus_fresh_id number' route' capacity' bs reqs :
  let r := addBus number' route' capacity' bs in
  let bus := mkBus (String_of_nat (length bs + 1)) number' route' capacity'
               (mkCoordinates 0 0) in
  store r = bs ++ [bus] ∧
  bus_id bus = String_of_nat (length (store r)) ∧
  deref (store r) (result r) = Some bus ∧
  (∀ j, j < length bs → store r !! j = bs !! j) ∧
  published r = [] ∧
  NoDup (bus_id <$> buses (handle_all js_String reqs initial_server)).
Proof.
  intros r bus.
  assert (r = (length bs, bs ++ [bus], [])) as -> by done.
  unfold store, result, published, deref. simpl. split_and!.
  - done.
  - by rewrite length_app.
  - by rewrite lookup_app_r, Nat.sub_diag.
  - intros j Hj. by rewrite lookup_app_l.
  - done.
  - apply ids_follow_positions_NoDup, ids_follow_positions_handle_all.
    intros j b [-> <-]%list_lookup_singleton_Some. done.
Qed.
End request_claims.

(** ** The statements at concrete inputs *)

(** Each statement with a hypothesis is used once on a sample input. *)

Lemma wf_one_subscriber : PubSub.wf one_subscriber.
Proof. apply wf_subscribe, wf_new. Qed.

Lemma C1_witness :
  (PubSub.drain 0 (PubSub.calls sample_calls one_subscriber)).1 =
    [mkEvent 0; mkEvent 1].
Proof.
  refine (eq_trans
    (C1_per_subscriber_fifo BUS_LOC_TOPIC 0 sample_calls one_subscriber _ _ _) _).
  - exact wf_one_subscriber.
  - apply elem_of_subscribers_subscribe. by left.
  - unfold sample_calls. rewrite !not_elem_of_cons. split_and!; try done.
    apply not_elem_of_nil.
  - vm_compute. reflexivity.
Defined.

Lemma C3_witness :
  PubSub.unsubscribe 0 (PubSub.unsubscribe 0 one_event) = PubSub.unsubscribe 0 one_event ∧
  PubSub.channel 0 (PubSub.calls sample_calls (PubSub.unsubscribe 0 one_event)) =
    PubSub.channel 0 one_event.
Proof.
  apply (C3_unsubscribe_final 0 sample_calls one_event).
  - apply wf_publish, wf_one_subscriber.
  - simpl. lia.
Defined.

Lemma C4_witness :
  run (publish BUS_LOC_TOPIC (mkEvent 0)) initial_server = (tt, initial_server).
Proof. apply C4_publish_without_subscribers. reflexivity. Defined.

Lemma C5_witness :
  published (updateBusLocation "1" 18.5 73.25 initial_buses) =
    [(BUS_LOC_TOPIC, mkEvent 0)] ∧
  payload (store (updateBusLocation "1" 18.5 73.25 initial_buses)) (mkEvent 0) =
    Some (at_coords 18.5 73.25 bus1) ∧
  published (simulate_location JsId_String (Some (JsNumber 1)) 0.75 0.25 initial_buses) =
    [(BUS_LOC_TOPIC, mkEvent 0)] ∧
  payload (store (simulate_location JsId_String (Some (JsNumber 1)) 0.75 0.25 initial_buses))
    (mkEvent 0) = Some (jitter 0.75 0.25 bus1) ∧
  published (addBus "MH14CD5678" "C-D" None initial_buses) = [].
Proof.
  apply (C5_one_publish_per_location_change JsId_String "1" (JsNumber 1)
           18.5 73.25 0.75 0.25 "MH14CD5678" "C-D" None initial_buses 0 bus1).
  - reflexivity.
  - vm_compute. reflexivity.
Defined.

(** [addBus] on the initial store: the store changes and no [publish]
    call is made. *)
Lemma C5_counterexample :
  length (published (addBus "MH14CD5678" "C-D" (Some 52%Z) initial_buses)) ≠ 1 ∧
  store (addBus "MH14CD5678" "C-D" (Some 52%Z) initial_buses) ≠ initial_buses.
Proof. split; [by vm_compute|]. vm_compute. discriminate. Qed.

Lemma C6_witness :
  updateBusLocation "7" 18.5 73.25 initial_buses = (None, initial_buses, []) ∧
  simulate_location JsId_String (Some (JsNumber 7)) 0.75 0.25 initial_buses =
    (Response 404 (ErrorBody "bus not found"), initial_buses, []) ∧
  run (updateBusLocation "7" 18.5 73.25) one_subscriber_server =
    (None, one_subscriber_server) ∧
  run (simulate_location JsId_String (Some (JsNumber 7)) 0.75 0.25) one_subscriber_server =
    (Response 404 (ErrorBody "bus not found"), one_subscriber_server).
Proof.
  apply (C6_no_publish_when_bus_missing JsId_String "7" (JsNumber 7)
           18.5 73.25 0.75 0.25 one_subscriber_server).
  - intros b ->%list_elem_of_singleton. discriminate.
  - vm_compute. reflexivity.
Defined.

(** The first of two updates of bus ["1"] is still buffered when the second
    runs; the subscriber then drains two events that both show the second
    update, and the state at the first publish call is seen by nobody. *)
Lemma C7_counterexample :
  let h := (subscribe_busLocationUpdated initial_server).1 in
  let sv1 := (run (updateBusLocation "1" 10 20) one_subscriber_server).2 in
  let at_publish := deref (buses sv1) 0 in
  let sv2 := (run (updateBusLocation "1" 30 40) sv1).2 in
  PubSub.channel h (pubsub sv1) = [mkEvent 0] ∧
  at_publish = Some (at_coords 10 20 bus1) ∧
  (drain h sv2).1 = [Some (at_coords 30 40 bus1); Some (at_coords 30 40 bus1)] ∧
  head (drain h sv2).1 ≠ Some at_publish.
Proof.
  split_and!; [by vm_compute..|].
  intros Hsame.
  apply (f_equal (λ seen, match seen with
                          | Some (Some b) => PrimFloat.eqb (lat (coords b)) 10
                          | _ => false
                          end)) in Hsame.
  vm_compute in Hsame. discriminate.
Qed.

Lemma C8_witness :
  let r := updateBusLocation "1" 18.5 73.25 initial_buses in
  result r = Some 0 ∧
  length (store r) = length initial_buses ∧
  (∀ j, j ≠ 0 → store r !! j = initial_buses !! j) ∧
  ∃ b', deref (store r) 0 = Some b' ∧
        bus_id b' = bus_id bus1 ∧ number b' = number bus1 ∧
        route b' = route bus1 ∧ capacity b' = capacity bus1 ∧
        coords b' = mkCoordinates 18.5 73.25.
Proof.
  apply (C8_updateBusLocation_frame "1" 18.5 73.25 initial_buses 0 bus1).
  reflexivity.
Defined.

(** The spec's examples, run. *)
Example three_publishes_drained_in_order :
  let '(s1, ps1) := PubSub.subscribe "entity-location-updated" PubSub.new in
  let ps2 := PubSub.publish_all "entity-location-updated" ["E1"; "E2"; "E3"] ps1 in
  (PubSub.drain s1 ps2).1 = ["E1"; "E2"; "E3"] ∧
  PubSub.channel s1 (PubSub.drain s1 ps2).2 = [].
Proof. by vm_compute. Qed.

Example two_subscribers_one_leaves :
  let sv1 := (subscribe_busLocationUpdated initial_server).2 in
  let sv2 := (subscribe_busLocationUpdated sv1).2 in
  let sv3 := (run (updateBusLocation "1" 10 20) sv2).2 in
  let sv4 := unsubscribe 0 sv3 in
  let sv5 := (run (updateBusLocation "1" 30 40) sv4).2 in
  (subscribe_busLocationUpdated initial_server).1 = 0 ∧
  (subscribe_busLocationUpdated sv1).1 = 1 ∧
  PubSub.channel 0 (pubsub sv3) = [mkEvent 0] ∧
  PubSub.channel 1 (pubsub sv3) = [mkEvent 0] ∧
  PubSub.channel 0 (pubsub sv5) = [mkEvent 0] ∧
  PubSub.channel 1 (pubsub sv5) = [mkEvent 0; mkEvent 0].
Proof. by vm_compute. Qed.

Example String_of_nat_is_decimal :
  String_of_nat <$> [1; 9; 10; 205] = ["1"; "9"; "10"; "205"].
Proof. by vm_compute. Qed.

Example addBus_twice :
  bus_id <$> buses (handle_all JsId_String
                      [ReqAddBus "MH14CD5678" "C-D" None; ReqAddBus "MH01EF9012" "E-F" (Some 30%Z)]
                      initial_server) = ["1"; "2"; "3"].
Proof. by vm_compute. Qed.

Example simulate_without_body :
  run (simulate_location JsId_String None 0.75 0.25) one_subscriber_server =
    (HandlerThrew "TypeError", one_subscriber_server).
Proof. by vm_compute. Qed.

(** * Further properties of the resolvers *)

Section resolver_laws.
Context {JsValue : Type} (js_String : JsValue → string).
Implicit Types (bs : list Bus) (b : Bus) (i : BusRef) (id : string).

Lemma result_updateBusLocation id x y bs :
  result (updateBusLocation id x y bs) = fst <$> list_find (λ b, bus_id b = id) bs.
Proof.
  destruct (list_find _ bs) as [[i b]|] eqn:Hfind.
  - by rewrite (updateBusLocation_found _ x y _ _ _ Hfind).
  - rewrite updateBusLocation_missing; [done|]. by apply list_find_id_None.
Qed.

Lemma published_updateBusLocation id x y bs :
  published (updateBusLocation id x y bs) =
    match list_find (λ b, bus_id b = id) bs with
    | Some (i, _) => [(BUS_LOC_TOPIC, mkEvent i)]
    | None => []
    end.
Proof.
  destruct (list_find _ bs) as [[i b]|] eqn:Hfind.
  - by rewrite (updateBusLocation_found _ x y _ _ _ Hfind).
  - rewrite updateBusLocation_missing; [done|]. by apply list_find_id_None.
Qed.

Lemma published_simulate_location v r1 r2 bs :
  published (simulate_location js_String (Some v) r1 r2 bs) =
    match list_find (λ b, bus_id b = js_String v) bs with
    | Some (i, _) => [(BUS_LOC_TOPIC, mkEvent i)]
    | None => []
    end.
Proof.
  destruct (list_find _ bs) as [[i b]|] eqn:Hfind.
  - by rewrite (simulate_location_found js_String v r1 r2 _ _ _ Hfind).
  - rewrite simulate_location_missing; [done|]. by apply list_find_id_None.
Qed.

Lemma list_find_relocate_None id id' (move : Bus → Bus) bs :
  (∀ b, bus_id (move b) = bus_id b) →
  list_find (λ b, bus_id b = id) bs = None →
  list_find (λ b, bus_id b = id) (relocate id' move bs) = None.
Proof.
  intros Hmove Hnone. unfold relocate.
  destruct (list_find (λ b, bus_id b = id') bs) as [[j bj]|] eqn:Hfind; [|done].
  apply list_find_Some in Hfind as (Hj & _).
  apply list_find_None. apply list_find_None in Hnone.
  apply Forall_insert; [done|]. rewrite Hmove.
  rewrite Forall_forall in Hnone. apply Hnone. by eapply list_elem_of_lookup_2.
Qed.

Lemma relocate_None id (move : Bus → Bus) bs :
  list_find (λ b, bus_id b = id) bs = None → relocate id move bs = bs.
Proof. intros Hnone. unfold relocate. by rewrite Hnone. Qed.

Lemma length_relocate id (move : Bus → Bus) bs :
  length (relocate id move bs) = length bs.
Proof. unfold relocate. destruct (list_find _ bs) as [[i b]|]; [|done]. apply length_insert. Qed.

Lemma ids_relocate id (move : Bus → Bus) bs :
  (∀ b, bus_id (move b) = bus_id b) →
  bus_id <$> relocate id move bs = bus_id <$> bs.
Proof.
  intros Hmove. unfold relocate.
  destruct (list_find _ bs) as [[i b]|] eqn:Hfind; [|done].
  apply list_find_Some in Hfind as (Hi & _).
  rewrite list_fmap_insert, Hmove. apply list_insert_id.
  by rewrite list_lookup_fmap, Hi.
Qed.

(** Two location writes on one bus: the later one decides. *)
Lemma relocate_relocate id (move move' : Bus → Bus) bs :
  (∀ b, bus_id (move b) = bus_id b) →
  relocate id move' (relocate id move bs) = relocate id (move' ∘ move) bs.
Proof.
  intros Hmove. destruct (list_find (λ b, bus_id b = id) bs) as [[i b]|] eqn:Hfind.
  - unfold relocate at 1.
    rewrite (list_find_relocate id id move bs i b Hmove Hfind), decide_True by done.
    unfold relocate. rewrite Hfind. by rewrite list_insert_insert_eq.
  - unfold relocate at 1. rewrite list_find_relocate_None by done.
    unfold relocate. by rewrite Hfind.
Qed.

(** Location writes on buses with different ids do not disturb each other. *)
Lemma relocate_commute id1 id2 (move1 move2 : Bus → Bus) bs :
  (∀ b, bus_id (move1 b) = bus_id b) →
  (∀ b, bus_id (move2 b) = bus_id b) →
  id1 ≠ id2 →
  relocate id1 move1 (relocate id2 move2 bs) = relocate id2 move2 (relocate id1 move1 bs).
Proof.
  intros Hmove1 Hmove2 Hne.
  destruct (list_find (λ b, bus_id b = id1) bs) as [[i bi]|] eqn:Hfind1;
    destruct (list_find (λ b, bus_id b = id2) bs) as [[j bj]|] eqn:Hfind2.
  - unfold relocate at 1.
    rewrite (list_find_relocate id1 id2 move2 bs i bi Hmove2 Hfind1), decide_False by done.
    unfold relocate at 2.
    rewrite (list_find_relocate id2 id1 move1 bs j bj Hmove1 Hfind2), decide_False by done.
    unfold relocate. rewrite Hfind1, Hfind2.
    apply list_find_Some in Hfind1 as (Hi & Hidi & _).
    apply list_find_Some in Hfind2 as (Hj & Hidj & _).
    apply list_insert_insert_ne. intros ->. congruence.
  - rewrite (relocate_None id2 move2 bs) by done.
    by rewrite (relocate_None id2 move2 (relocate id1 move1 bs))
      by by apply list_find_relocate_None.
  - rewrite (relocate_None id1 move1 bs) by done.
    by rewrite (relocate_None id1 move1 (relocate id2 move2 bs))
      by by apply list_find_relocate_None.
  - rewrite (relocate_None id2 move2 bs), (relocate_None id1 move1 bs) by done.
    by rewrite (relocate_None id2 move2 bs).
Qed.
End resolver_laws.

Section resolver_extras.
Context {JsValue : Type} (js_String : JsValue → string).
Implicit Types (bs : list Bus) (b : Bus) (i : BusRef) (id : string).

(** X1. When a bus carries the id of the request body,
    [/simulate-location] answers 200 with that bus as it is after the
    write, which is also what the published event then shows; the write
    adds [(random - 0.5) * 0.001] to each coordinate, keeps the id, number,
    route and capacity of the bus, and leaves the length of the store and
    every other bus unchanged. *)
Theorem simulate_location_frame v r1 r2 bs i b :
  list_find (λ b, bus_id b = js_String v) bs = Some (i, b) →
  let r := simulate_location js_String (Some v) r1 r2 bs in
  (∃ b', result r = Response 200 (BusBody (Some b')) ∧
         payload (store r) (mkEvent i) = Some b' ∧
         same_bus b b' ∧
         coords b' = mkCoordinates (lat (coords b) + (r1 - 0.5) * 0.001)
                                   (lng (coords b) + (r2 - 0.5) * 0.001)) ∧
  length (store r) = length bs ∧
  (∀ j, j ≠ i → store r !! j = bs !! j).
Proof.
  intros Hfind r. subst r.
  rewrite (simulate_location_found js_String v r1 r2 _ _ _ Hfind).
  apply list_find_Some in Hfind as (Hi & _). apply lookup_lt_Some in Hi.
  unfold result, store, payload, deref. simpl. split_and!.
  - exists (jitter r1 r2 b). by rewrite list_lookup_insert_eq.
  - apply length_insert.
  - intros j Hj. by apply list_lookup_insert_ne.
Qed.

(** The outcomes of the handler on the values [String] converts. *)
Lemma simulate_location_converted_outcomes body r1 r2 bs :
  let r := simulate_location js_String body r1 r2 bs in
  length (store r) = length bs ∧
  bus_id <$> store r = bus_id <$> bs ∧
  length (published r) ≤ 1 ∧
  (published r = [] → store r = bs) ∧
  ((∃ answer, result r = Response 200 answer) ↔
     ∃ i, published r = [(BUS_LOC_TOPIC, mkEvent i)]) ∧
  ((∃ message, result r = HandlerThrew message) ↔ body = None) ∧
  (result r = Response 404 (ErrorBody "bus not found") ↔
     ∃ v, body = Some v ∧ ∀ b, b ∈ bs → bus_id b ≠ js_String v).
Proof.
  intros r. subst r. destruct body as [v|].
  - destruct (list_find (λ b, bus_id b = js_String v) bs) as [[i b]|] eqn:Hfind.
    + rewrite (simulate_location_found js_String v r1 r2 _ _ _ Hfind).
      pose proof Hfind as (Hi & Hid & _)%list_find_Some.
      unfold result, store, published. simpl. split_and!.
      * apply length_insert.
      * rewrite list_fmap_insert. apply list_insert_id.
        by rewrite list_lookup_fmap, Hi.
      * lia.
      * done.
      * split; eauto.
      * split; [by intros [message ?]|done].
      * split; [done|]. intros (v' & [= <-] & Hnone).
        exfalso. eapply Hnone; [|done]. by eapply list_elem_of_lookup_2.
    + pose proof (list_find_id_None _ _ Hfind) as Hnone.
      rewrite (simulate_location_missing js_String v r1 r2 _ Hnone).
      unfold result, store, published. simpl. split_and!; try done.
      * lia.
      * split; [by intros [answer ?]|by intros [i ?]].
      * split; [by intros [message ?]|done].
      * split; [eauto|done].
  - unfold simulate_location, ret, result, store, published. simpl.
    split_and!; try done.
    + lia.
    + split; [by intros [answer ?]|by intros [i ?]].
    + split; [done|eauto].
    + split; [done|]. by intros (v & ? & _).
Qed.

(** X3. A [/simulate-location] step on a bus is the [updateBusLocation]
    mutation for the same id with the jittered coordinates: both leave the
    same store and make the same [publish] call. *)
Theorem simulate_location_as_update v r1 r2 bs i b :
  list_find (λ b, bus_id b = js_String v) bs = Some (i, b) →
  let sim := simulate_location js_String (Some v) r1 r2 bs in
  let upd := updateBusLocation (js_String v)
               (lat (coords b) + (r1 - 0.5) * 0.001)
               (lng (coords b) + (r2 - 0.5) * 0.001) bs in
  store sim = store upd ∧ published sim = published upd ∧ result upd = Some i.
Proof.
  intros Hfind sim upd. subst sim upd.
  rewrite (simulate_location_found js_String v r1 r2 _ _ _ Hfind).
  by rewrite (updateBusLocation_found _ _ _ _ _ _ Hfind).
Qed.

(** X4. Every [updateBusLocation] call that finds its bus makes one
    [publish] call for it, and a call that finds none makes none.  Of two
    calls for one id in a row, the second finds the same bus and publishes
    again, also when it changes nothing, and the store ends as if only the
    second had run. *)
Theorem updateBusLocation_last_write_wins id x y x' y' bs :
  let first := updateBusLocation id x y bs in
  let second := updateBusLocation id x' y' (store first) in
  store second = store (updateBusLocation id x' y' bs) ∧
  result second = result first ∧
  published first =
    match result first with
    | Some i => [(BUS_LOC_TOPIC, mkEvent i)]
    | None => []
    end ∧
  published second = published first.
Proof.
  intros first second. subst first second.
  rewrite !store_updateBusLocation, !result_updateBusLocation,
    !published_updateBusLocation.
  destruct (list_find (λ b, bus_id b = id) bs) as [[i b]|] eqn:Hfind.
  - rewrite (list_find_relocate id id (at_coords x y) bs i b) by done.
    rewrite relocate_relocate by done.
    unfold relocate. by rewrite Hfind.
  - rewrite (list_find_relocate_None id id (at_coords x y) bs) by done.
    rewrite relocate_relocate by done. unfold relocate. by rewrite Hfind.
Qed.

(** X5. [updateBusLocation] calls for two different ids commute: either
    order leaves the same store. *)
Theorem updateBusLocation_commute id1 id2 x1 y1 x2 y2 bs :
  id1 ≠ id2 →
  store (updateBusLocation id2 x2 y2 (store (updateBusLocation id1 x1 y1 bs))) =
  store (updateBusLocation id1 x1 y1 (store (updateBusLocation id2 x2 y2 bs))).
Proof.
  intros Hne. rewrite !store_updateBusLocation.
  symmetry. by apply relocate_commute.
Qed.

(** X6. Where ids follow positions (as in every store the server can
    reach), the bus [addBus] has just returned is the one
    [updateBusLocation] finds under its id, and [Query.buses] then lists
    it last, with the new coordinates, after the unchanged earlier
    buses. *)
Theorem addBus_then_update_then_query number' route' capacity' x y bs :
  ids_follow_positions bs →
  let added := addBus number' route' capacity' bs in
  let id := String_of_nat (length bs + 1) in
  let moved := updateBusLocation id x y (store added) in
  (bus_id <$> deref (store added) (result added)) = Some id ∧
  result moved = Some (result added) ∧
  result (Query_buses (store moved)) =
    bs ++ [mkBus id number' route' capacity' (mkCoordinates x y)].
Proof.
  intros Hids added id moved.
  set (bus := mkBus id number' route' capacity' (mkCoordinates 0 0)).
  assert (added = (length bs, bs ++ [bus], [])) as Hadded by done.
  assert (list_find (λ b, bus_id b = id) (bs ++ [bus]) = Some (length bs, bus)) as Hfind.
  { apply list_find_Some. split_and!.
    - by rewrite lookup_app_r, Nat.sub_diag.
    - done.
    - intros j b Hj Hlt. rewrite lookup_app_l in Hj by done.
      rewrite (Hids _ _ Hj). unfold id, String_of_nat.
      intros Heq%(inj pretty). lia. }
  subst moved. rewrite Hadded. unfold store, result, deref. simpl.
  rewrite (updateBusLocation_found _ x y _ _ _ Hfind). simpl.
  split_and!.
  - by rewrite lookup_app_r, Nat.sub_diag.
  - done.
  - rewrite insert_app_r_alt, Nat.sub_diag by done. done.
Qed.

End resolver_extras.

Section simulate_any_body_extras.
Context {JsValue : Type} (js_String : JsValue → option string).
Implicit Types (bs : list Bus) (b : Bus) (i : BusRef).

(** On a value [String] converts, the handler is [simulate_location] on
    the converted id, whatever the store. *)
Lemma simulate_location_any_converted v s r1 r2 bs :
  js_String v = Some s →
  simulate_location_any js_String (Some v) r1 r2 bs =
    simulate_location (λ s : string, s) (Some s) r1 r2 bs.
Proof.
  intros Hs. unfold simulate_location_any. rewrite Hs.
  destruct bs as [|b0 bs']; [|done].
  by rewrite (simulate_location_missing (λ s : string, s) s r1 r2 [])
    by (intros b Hb; by apply elem_of_nil in Hb).
Qed.

(** X2. Whatever the request, [/simulate-location] keeps the length of the
    store and the id at every position, and makes at most one [publish]
    call.  It answers 200 exactly when it publishes (one event on
    [BUS_LOCATION]); it throws exactly when the request has no body or,
    the store being non-empty, [String] throws on the body's id; it
    answers 404 exactly when the store is empty or the converted id is
    carried by no bus; and when it does not publish it has not written
    anything. *)
Theorem simulate_location_any_outcomes body r1 r2 bs :
  let r := simulate_location_any js_String body r1 r2 bs in
  length (store r) = length bs ∧
  bus_id <$> store r = bus_id <$> bs ∧
  length (published r) ≤ 1 ∧
  (published r = [] → store r = bs) ∧
  ((∃ answer, result r = Response 200 answer) ↔
     ∃ i, published r = [(BUS_LOC_TOPIC, mkEvent i)]) ∧
  ((∃ message, result r = HandlerThrew message) ↔
     body = None ∨ ∃ v, body = Some v ∧ js_String v = None ∧ bs ≠ []) ∧
  (result r = Response 404 (ErrorBody "bus not found") ↔
     ∃ v, body = Some v ∧
          (bs = [] ∨ ∃ s, js_String v = Some s ∧ ∀ b, b ∈ bs → bus_id b ≠ s)).
Proof.
  intros r. subst r. destruct body as [v|].
  - destruct (js_String v) as [s|] eqn:Hs.
    + rewrite (simulate_location_any_converted v s) by done.
      destruct (simulate_location_converted_outcomes (λ s : string, s) (Some s) r1 r2 bs)
        as (Hlen & Hids & Hone & Hnone & H200 & Hthrew & H404).
      split_and!; try done.
      * rewrite Hthrew. split; [done|]. intros [?|(v' & [= <-] & ? & _)]; congruence.
      * rewrite H404. split.
        -- intros (s' & [= <-] & Hmissing). exists v. eauto 6.
        -- intros (v' & [= <-] & [->|(s' & Hs' & Hmissing)]).
           ++ exists s. split; [done|]. intros b Hb. by apply elem_of_nil in Hb.
           ++ exists s. split; [done|]. by assert (s = s') as -> by congruence.
    + unfold simulate_location_any. rewrite Hs.
      destruct bs as [|b0 bs']; unfold result, store, published; simpl.
      * split_and!; try done.
        -- lia.
        -- split; [by intros [answer ?]|by intros [i ?]].
        -- split; [by intros [message ?]|].
           intros [?|(v' & _ & _ & ?)]; done.
        -- split; [eauto|done].
      * split_and!; try done.
        -- lia.
        -- split; [by intros [answer ?]|by intros [i ?]].
        -- split; [|eauto]. intros _. right. exists v. done.
        -- split; [done|]. intros (v' & [= <-] & [?|(s' & ? & _)]); congruence.
  - unfold simulate_location_any, ret, result, store, published. simpl.
    split_and!; try done.
    + lia.
    + split; [by intros [answer ?]|by intros [i ?]].
    + split; [eauto|eauto].
    + split; [done|]. by intros (v & ? & _).
Qed.
End simulate_any_body_extras.

(** * Further properties of request sequences *)

Section request_laws.
Context {JsValue : Type} (js_String : JsValue → string).
Implicit Types (bs : list Bus) (b : Bus) (i : BusRef) (id : string) (sv : Server).
Implicit Types (req : Request JsValue) (reqs : list (Request JsValue)).

Lemma ids_follow_positions_initial : ids_follow_positions initial_buses.
Proof. intros j b [-> <-]%list_lookup_singleton_Some. done. Qed.

(** Where ids follow positions, looking a bus up by id is looking it up
    by position. *)
Lemma list_find_by_position id bs i :
  ids_follow_positions bs →
  fst <$> list_find (λ b, bus_id b = id) bs = Some i ↔
  i < length bs ∧ id = String_of_nat (S i).
Proof.
  intros Hids. split.
  - intros ([i' b] & Hfind & [= ->])%fmap_Some.
    apply list_find_Some in Hfind as (Hi & Hid & _). split.
    + by eapply lookup_lt_Some.
    + by rewrite <- Hid, (Hids _ _ Hi).
  - intros [Hlt ->]. destruct (lookup_lt_is_Some_2 bs i Hlt) as [b Hi].
    apply fmap_Some. exists (i, b). split; [|done].
    apply list_find_Some. split_and!; [done|by apply Hids|].
    intros j b' Hj Hji. rewrite (Hids _ _ Hj). unfold String_of_nat.
    intros Heq%(inj pretty). lia.
Qed.

Lemma same_bus_refl b : same_bus b b.
Proof. by repeat split. Qed.

Lemma same_bus_trans b1 b2 b3 : same_bus b1 b2 → same_bus b2 b3 → same_bus b1 b3.
Proof. unfold same_bus. intros (? & ? & ? & ?) (? & ? & ? & ?). split_and!; congruence. Qed.

Lemma lookup_relocate id (move : Bus → Bus) bs i b :
  (∀ b, same_bus b (move b)) →
  bs !! i = Some b →
  ∃ b', relocate id move bs !! i = Some b' ∧ same_bus b b'.
Proof.
  intros Hmove Hi. unfold relocate.
  destruct (list_find _ bs) as [[j bj]|] eqn:Hfind; [|eauto using same_bus_refl].
  apply list_find_Some in Hfind as (Hj & _).
  destruct (decide (j = i)) as [->|].
  - rewrite list_lookup_insert_eq by by eapply lookup_lt_Some.
    pose proof (eq_trans (eq_sym Hj) Hi) as [= ->]. eauto.
  - rewrite list_lookup_insert_ne by done. eauto using same_bus_refl.
Qed.

Lemma lookup_handle req sv i b :
  buses sv !! i = Some b →
  ∃ b', buses (handle js_String req sv) !! i = Some b' ∧ same_bus b b'.
Proof.
  intros Hi. rewrite buses_handle.
  destruct req as [number' route' capacity'|id x y|fetch now name message
                  |[v|] r1 r2| |h|h]; eauto using same_bus_refl.
  - exists b. split; [|apply same_bus_refl].
    rewrite lookup_app_l; [done|]. by eapply lookup_lt_Some.
  - apply lookup_relocate; [|done]. intros b0. by repeat split.
  - apply lookup_relocate; [|done]. intros b0. by repeat split.
Qed.

Lemma lookup_handle_all reqs sv i b :
  buses sv !! i = Some b →
  ∃ b', buses (handle_all js_String reqs sv) !! i = Some b' ∧ same_bus b b'.
Proof.
  revert sv b. induction reqs as [|req reqs IH]; intros sv b Hi.
  - eauto using same_bus_refl.
  - destruct (lookup_handle req sv i b Hi) as (b1 & Hi1 & Hsame1).
    destruct (IH _ _ Hi1) as (b2 & Hi2 & Hsame2).
    eauto using same_bus_trans.
Qed.

Lemma length_buses_handle req sv :
  length (buses (handle js_String req sv)) =
    length (buses sv) + (if is_addBus req then 1 else 0).
Proof.
  rewrite buses_handle.
  destruct req as [number' route' capacity'|id x y|fetch now name message
                  |[v|] r1 r2| |h|h]; simpl; rewrite ?length_relocate, ?length_app; simpl; lia.
Qed.

(** A request publishes nothing or one event on [BUS_LOCATION] that
    refers to a bus of the store. *)
Lemma emitted_cases req bs :
  emitted js_String req bs = [] ∨
  ∃ i, emitted js_String req bs = [(BUS_LOC_TOPIC, mkEvent i)] ∧ i < length bs.
Proof.
  destruct req as [number' route' capacity'|id x y|fetch now name message
                  |[v|] r1 r2| |h|h]; cbn [emitted]; try by left.
  - rewrite published_updateBusLocation.
    destruct (list_find _ bs) as [[i b]|] eqn:Hfind; [right|by left].
    apply list_find_Some in Hfind as (Hi & _). exists i.
    split; [done|]. by eapply lookup_lt_Some.
  - left. unfold addReview. destruct (fetch _); [|done]. by case_bool_decide.
  - rewrite published_simulate_location.
    destruct (list_find _ bs) as [[i b]|] eqn:Hfind; [right|by left].
    apply list_find_Some in Hfind as (Hi & _). exists i.
    split; [done|]. by eapply lookup_lt_Some.
Qed.

(** The engine after a request: it receives the request's [publish]
    calls, or the subscription call itself. *)
Lemma pubsub_handle req sv :
  pubsub (handle js_String req sv) =
    match req with
    | ReqSubscribe => (PubSub.subscribe BUS_LOC_TOPIC (pubsub sv)).2
    | ReqUnsubscribe h => PubSub.unsubscribe h (pubsub sv)
    | ReqDrain h => (PubSub.drain h (pubsub sv)).2
    | _ => forward (emitted js_String req (buses sv)) (pubsub sv)
    end.
Proof.
  assert (∀ A (m : Resolver A),
            pubsub (run m sv).2 = forward (published (m (buses sv))) (pubsub sv)) as Hrun.
  { intros A m. unfold run, published. by destruct (m (buses sv)) as [[a bs] out]. }
  destruct req as [number' route' capacity'|id x y|fetch now name message
                  |body r1 r2| |h|h]; cbn [handle emitted]; by rewrite ?Hrun.
Qed.

Lemma channel_handle h req sv :
  PubSub.wf (pubsub sv) →
  h ∈ PubSub.subscribers BUS_LOC_TOPIC (pubsub sv) →
  req ≠ ReqUnsubscribe h →
  req ≠ ReqDrain h →
  h ∈ PubSub.subscribers BUS_LOC_TOPIC (pubsub (handle js_String req sv)) ∧
  PubSub.channel h (pubsub (handle js_String req sv)) =
    PubSub.channel h (pubsub sv) ++ (snd <$> emitted js_String req (buses sv)).
Proof.
  intros Hwf Hh Hunsub Hdrain. rewrite pubsub_handle.
  assert (h ∈ PubSub.subscribers BUS_LOC_TOPIC
                (forward (emitted js_String req (buses sv)) (pubsub sv)) ∧
          PubSub.channel h (forward (emitted js_String req (buses sv)) (pubsub sv)) =
            PubSub.channel h (pubsub sv) ++ (snd <$> emitted js_String req (buses sv)))
    as Hforward.
  { destruct (emitted_cases req (buses sv)) as [->|(i & -> & _)].
    - simpl. by rewrite app_nil_r.
    - change (forward [(BUS_LOC_TOPIC, mkEvent i)] (pubsub sv))
        with (PubSub.call (PubSub.CPublish BUS_LOC_TOPIC (mkEvent i)) (pubsub sv)).
      destruct (channel_call_registered BUS_LOC_TOPIC h
                  (PubSub.CPublish BUS_LOC_TOPIC (mkEvent i)) (pubsub sv))
        as [Hh' Hch]; [done..|].
      split; [done|]. rewrite Hch. unfold PubSub.published_on.
      by vm_compute. }
  destruct req as [number' route' capacity'|id x y|fetch now name message
                  |body r1 r2| |h'|h']; try done.
  - destruct (channel_call_registered BUS_LOC_TOPIC h
                (PubSub.CSubscribe BUS_LOC_TOPIC) (pubsub sv)) as [Hh' Hch]; done.
  - destruct (channel_call_registered BUS_LOC_TOPIC h
                (PubSub.CUnsubscribe h') (pubsub sv)) as [Hh' Hch]; [done..|congruence|done].
  - split; [done|]. simpl. rewrite app_nil_r. unfold PubSub.channel. simpl.
    rewrite lookup_alter_ne; [done|]. congruence.
Qed.
Lemma published_addReview fetch now name message bs :
  published (addReview fetch now name message bs) = [].
Proof. unfold addReview. destruct (fetch _); [|done]. by case_bool_decide. Qed.

(** What a request publishes is what it writes: one event for the bus a
    location write finds, nothing otherwise. *)
Lemma emitted_written req bs :
  snd <$> emitted js_String req bs =
    option_list (mkEvent <$> written js_String req bs).
Proof.
  destruct req as [number' route' capacity'|id x y|fetch now name message
                  |[v|] r1 r2| |h|h]; cbn [emitted written]; try done.
  - rewrite published_updateBusLocation.
    by destruct (list_find _ bs) as [[i b]|].
  - by rewrite published_addReview.
  - rewrite published_simulate_location.
    by destruct (list_find _ bs) as [[i b]|].
Qed.

Lemma wf_handle_all reqs sv :
  PubSub.wf (pubsub sv) → PubSub.wf (pubsub (handle_all js_String reqs sv)).
Proof.
  revert sv. induction reqs as [|req reqs IH]; intros sv Hwf; [done|].
  apply IH. by apply wf_handle.
Qed.

(** A subscription left alone by a sequence of requests stays registered
    and collects one event per location write that finds its bus. *)
Lemma channel_handle_all h reqs sv :
  PubSub.wf (pubsub sv) →
  h ∈ PubSub.subscribers BUS_LOC_TOPIC (pubsub sv) →
  ReqUnsubscribe h ∉ reqs →
  ReqDrain h ∉ reqs →
  h ∈ PubSub.subscribers BUS_LOC_TOPIC (pubsub (handle_all js_String reqs sv)) ∧
  PubSub.channel h (pubsub (handle_all js_String reqs sv)) =
    PubSub.channel h (pubsub sv) ++ location_writes js_String reqs sv.
Proof.
  revert sv. induction reqs as [|req reqs IH]; intros sv Hwf Hh Hunsub Hdrain.
  - simpl. by rewrite app_nil_r.
  - apply not_elem_of_cons in Hunsub as [Hunsub1 Hunsub].
    apply not_elem_of_cons in Hdrain as [Hdrain1 Hdrain].
    destruct (channel_handle h req sv) as [Hh' Hch]; [done..|].
    change (handle_all js_String (req :: reqs) sv)
      with (handle_all js_String reqs (handle js_String req sv)).
    destruct (IH (handle js_String req sv)) as [Hh'' Hch'']; [by apply wf_handle|done..|].
    split; [done|].
    rewrite Hch'', Hch, emitted_written. simpl. by rewrite <- app_assoc.
Qed.

(** Draining reads every buffered event against the store as it is. *)
Lemma drain_lookup h sv n e :
  PubSub.channel h (pubsub sv) !! n = Some e →
  (drain h sv).1 !! n = Some (payload (buses sv) e).
Proof. intros Hn. unfold drain. simpl. by rewrite list_lookup_fmap, Hn. Qed.
End request_laws.

Section request_extras.
Context {JsValue : Type} (js_String : JsValue → string).
Implicit Types (bs : list Bus) (b : Bus) (i : BusRef) (id : string) (sv : Server).
Implicit Types (req : Request JsValue) (reqs : list (Request JsValue)).

(** X7. In every store the server can reach from its initial state,
    [updateBusLocation] finds a bus for an id exactly when the id is the
    decimal string of a position counted from one, and the bus it returns
    is the one at that position. *)
Theorem updateBusLocation_finds_by_position reqs id x y i :
  let bs := buses (handle_all js_String reqs initial_server) in
  result (updateBusLocation id x y bs) = Some i ↔
  i < length bs ∧ id = String_of_nat (S i).
Proof.
  intros bs. rewrite result_updateBusLocation. apply list_find_by_position.
  apply ids_follow_positions_handle_all, ids_follow_positions_initial.
Qed.

(** X8. No sequence of requests removes or reorders buses or touches
    their id, number, route or capacity: a bus stays at its position and
    only its coordinates can differ. *)
Theorem buses_only_move reqs sv i b :
  buses sv !! i = Some b →
  ∃ b', buses (handle_all js_String reqs sv) !! i = Some b' ∧ same_bus b b'.
Proof. apply lookup_handle_all. Qed.

(** X9. The store grows by exactly one bus per [addBus] request and by
    nothing else. *)
Theorem buses_count reqs sv :
  length (buses (handle_all js_String reqs sv)) =
    length (buses sv) + count_addBus reqs.
Proof.
  revert sv. induction reqs as [|req reqs IH]; intros sv; simpl.
  - lia.
  - change (handle_all js_String (req :: reqs) sv)
      with (handle_all js_String reqs (handle js_String req sv)).
    rewrite IH, length_buses_handle. lia.
Qed.

(** X10. Whatever a request publishes is a single event on
    [BUS_LOCATION], and the bus it refers to is in the store from then on:
    after any later requests the event still shows a bus, the same one up
    to its coordinates. *)
Theorem published_event_never_dangles req reqs sv topic e :
  (topic, e) ∈ emitted js_String req (buses sv) →
  topic = BUS_LOC_TOPIC ∧
  emitted js_String req (buses sv) = [(topic, e)] ∧
  ∃ b b', payload (buses (handle js_String req sv)) e = Some b ∧
          payload (buses (handle_all js_String reqs (handle js_String req sv))) e = Some b' ∧
          same_bus b b'.
Proof.
  intros He.
  destruct (emitted_cases js_String req (buses sv)) as [Hnone|(i & Hone & Hlt)].
  - rewrite Hnone in He. by apply elem_of_nil in He.
  - rewrite Hone in He. apply list_elem_of_singleton in He as [= -> ->].
    split_and!; [done..|].
    destruct (lookup_lt_is_Some_2 (buses sv) i Hlt) as [b0 Hi].
    destruct (lookup_handle js_String req sv i b0 Hi) as (b & Hb & _).
    destruct (lookup_handle_all js_String reqs _ i b Hb) as (b' & Hb' & Hsame).
    eauto.
Qed.

(** X12. A client subscribed to [busLocationUpdated] whose session is
    neither ended nor drained meanwhile finds in its channel, after any
    sequence of requests, what was buffered before followed by one event
    per [updateBusLocation] or [/simulate-location] request whose id a bus
    of the store carried when the request arrived, in request order and
    each referring to that bus; [addBus], [addReview], writes that find no
    bus and other clients' sessions add nothing.  (The channel is that of
    the engine as modelled in [PubSub].) *)
Theorem subscriber_gets_each_location_write h reqs sv :
  PubSub.wf (pubsub sv) →
  h ∈ PubSub.subscribers BUS_LOC_TOPIC (pubsub sv) →
  ReqUnsubscribe h ∉ reqs →
  ReqDrain h ∉ reqs →
  PubSub.channel h (pubsub (handle_all js_String reqs sv)) =
    PubSub.channel h (pubsub sv) ++ location_writes js_String reqs sv.
Proof. intros Hwf Hh Hunsub Hdrain. by apply channel_handle_all. Qed.

(** C7, as amended. The event published by [updateBusLocation] carries
    the store's bus object, not a copy.  The event reaches the channel of
    every registered subscriber, and what the subscriber sees when it
    drains it is the bus as it is then: the state at the publish call as
    long as no later request has written the coordinates of that bus, and
    the newer coordinates once [updateBusLocation] or [/simulate-location]
    has run for the same id before the drain. *)
Theorem C7_event_shows_live_bus h id (v : JsValue) x y x' y' r1 r2 reqs sv i b :
  PubSub.wf (pubsub sv) →
  h ∈ PubSub.subscribers BUS_LOC_TOPIC (pubsub sv) →
  list_find (λ b, bus_id b = id) (buses sv) = Some (i, b) →
  js_String v = id →
  Forall (λ req, ¬ moves js_String id req) reqs →
  ReqUnsubscribe h ∉ reqs →
  ReqDrain h ∉ reqs →
  let n := length (PubSub.channel h (pubsub sv)) in
  let sv1 := (run (updateBusLocation id x y) sv).2 in
  let sv2 := handle_all js_String reqs sv1 in
  let sv3 := (run (updateBusLocation id x' y') sv2).2 in
  let sv4 := (run (simulate_location js_String (Some v) r1 r2) sv2).2 in
  PubSub.channel h (pubsub sv1) = PubSub.channel h (pubsub sv) ++ [mkEvent i] ∧
  deref (buses sv1) i = Some (at_coords x y b) ∧
  (drain h sv1).1 !! n = Some (Some (at_coords x y b)) ∧
  (drain h sv2).1 !! n = Some (Some (at_coords x y b)) ∧
  (drain h sv3).1 !! n = Some (Some (at_coords x' y' b)) ∧
  (drain h sv4).1 !! n = Some (Some (jitter r1 r2 (at_coords x y b))).
Proof.
  intros Hwf Hh Hfind Hv Hreqs Hunsub Hdrain n sv1 sv2 sv3 sv4.
  (* the first write: one event for bus [i] joins the channel *)
  destruct (channel_handle js_String h (ReqUpdateBusLocation id x y) sv)
    as [Hh1 Hch1]; [done..|].
  cbn [handle emitted] in Hh1, Hch1. fold sv1 in Hh1, Hch1.
  rewrite (updateBusLocation_found _ x y _ _ _ Hfind) in Hch1.
  change (PubSub.channel h (pubsub sv1) =
            PubSub.channel h (pubsub sv) ++ [mkEvent i]) in Hch1.
  assert (PubSub.wf (pubsub sv1)) as Hwf1
    by apply (wf_handle js_String (ReqUpdateBusLocation id x y) sv Hwf).
  assert (list_find (λ b, bus_id b = id) (buses sv1) = Some (i, at_coords x y b)) as Hfind1.
  { unfold sv1. rewrite buses_run, store_updateBusLocation.
    rewrite (list_find_relocate id id _ _ i b); [|done..]. by rewrite decide_True. }
  (* the requests in between leave the bus and the buffered event alone *)
  destruct (channel_handle_all js_String h reqs sv1) as [Hh2 Hch2]; [done..|].
  fold sv2 in Hh2, Hch2.
  assert (PubSub.wf (pubsub sv2)) as Hwf2 by by apply wf_handle_all.
  assert (list_find (λ b, bus_id b = id) (buses sv2) = Some (i, at_coords x y b)) as Hfind2
    by by apply handle_all_keeps_bus.
  (* a later write through either entry point *)
  destruct (channel_handle js_String h (ReqUpdateBusLocation id x' y') sv2)
    as [_ Hch3]; [done..|].
  cbn [handle] in Hch3. fold sv3 in Hch3.
  destruct (channel_handle js_String h (ReqSimulateLocation (Some v) r1 r2) sv2)
    as [_ Hch4]; [done..|].
  cbn [handle] in Hch4. fold sv4 in Hch4.
  assert (list_find (λ b, bus_id b = id) (buses sv3) = Some (i, at_coords x' y' b)) as Hfind3.
  { unfold sv3. rewrite buses_run, store_updateBusLocation.
    rewrite (list_find_relocate id id _ _ i (at_coords x y b)); [|done..].
    by rewrite decide_True. }
  assert (list_find (λ b, bus_id b = id) (buses sv4) =
            Some (i, jitter r1 r2 (at_coords x y b))) as Hfind4.
  { unfold sv4. rewrite buses_run, store_simulate_location, Hv.
    rewrite (list_find_relocate id id _ _ i (at_coords x y b)); [|done..].
    by rewrite decide_True. }
  (* the event sits at position [n] of the channel throughout *)
  assert (PubSub.channel h (pubsub sv1) !! n = Some (mkEvent i)) as Hn1.
  { rewrite Hch1. by rewrite lookup_app_r, Nat.sub_diag. }
  assert (PubSub.channel h (pubsub sv2) !! n = Some (mkEvent i)) as Hn2.
  { rewrite Hch2. apply lookup_app_l_Some. done. }
  assert (PubSub.channel h (pubsub sv3) !! n = Some (mkEvent i)) as Hn3.
  { rewrite Hch3. apply lookup_app_l_Some. done. }
  assert (PubSub.channel h (pubsub sv4) !! n = Some (mkEvent i)) as Hn4.
  { rewrite Hch4. apply lookup_app_l_Some. done. }
  apply list_find_Some in Hfind1 as (H1 & _), Hfind2 as (H2 & _),
    Hfind3 as (H3 & _), Hfind4 as (H4 & _).
  split_and!; [done|done|..].
  - rewrite (drain_lookup h sv1 n _ Hn1). exact (f_equal Some H1).
  - rewrite (drain_lookup h sv2 n _ Hn2). exact (f_equal Some H2).
  - rewrite (drain_lookup h sv3 n _ Hn3). exact (f_equal Some H3).
  - rewrite (drain_lookup h sv4 n _ Hn4). exact (f_equal Some H4).
Qed.
End request_extras.

(** ** The further statements at concrete inputs *)

Lemma simulate_location_frame_witness :
  let r := simulate_location JsId_String (Some (JsNumber 1)) 0.75 0.25 initial_buses in
  (∃ b', result r = Response 200 (BusBody (Some b')) ∧
         payload (store r) (mkEvent 0) = Some b' ∧
         same_bus bus1 b' ∧
         coords b' = mkCoordinates (lat (coords bus1) + (0.75 - 0.5) * 0.001)
                                   (lng (coords bus1) + (0.25 - 0.5) * 0.001)) ∧
  length (store r) = length initial_buses ∧
  (∀ j, j ≠ 0 → store r !! j = initial_buses !! j).
Proof.
  apply (simulate_location_frame JsId_String (JsNumber 1) 0.75 0.25 initial_buses 0 bus1).
  reflexivity.
Defined.

Lemma simulate_location_as_update_witness :
  let sim := simulate_location JsId_String (Some (JsString "1")) 0.75 0.25 initial_buses in
  let upd := updateBusLocation "1"
               (lat (coords bus1) + (0.75 - 0.5) * 0.001)
               (lng (coords bus1) + (0.25 - 0.5) * 0.001) initial_buses in
  store sim = store upd ∧ published sim = published upd ∧ result upd = Some 0.
Proof.
  apply (simulate_location_as_update JsId_String (JsString "1") 0.75 0.25
           initial_buses 0 bus1).
  reflexivity.
Defined.

Lemma updateBusLocation_commute_witness :
  store (updateBusLocation "2" 30 40 (store (updateBusLocation "1" 10 20 two_buses))) =
  store (updateBusLocation "1" 10 20 (store (updateBusLocation "2" 30 40 two_buses))).
Proof. apply (updateBusLocation_commute "1" "2" 10 20 30 40 two_buses). discriminate. Defined.

Lemma addBus_then_update_then_query_witness :
  let added := addBus "MH14CD5678" "C-D" None initial_buses in
  let id := String_of_nat (length initial_buses + 1) in
  let moved := updateBusLocation id 10 20 (store added) in
  (bus_id <$> deref (store added) (result added)) = Some id ∧
  result moved = Some (result added) ∧
  result (Query_buses (store moved)) =
    initial_buses ++ [mkBus id "MH14CD5678" "C-D" None (mkCoordinates 10 20)].
Proof.
  apply (addBus_then_update_then_query "MH14CD5678" "C-D" None 10 20 initial_buses).
  intros j b [-> <-]%list_lookup_singleton_Some. reflexivity.
Defined.

Lemma buses_only_move_witness :
  ∃ b', buses (handle_all JsId_String busy_requests one_subscriber_server) !! 0 = Some b' ∧
        same_bus bus1 b'.
Proof.
  apply (buses_only_move JsId_String busy_requests one_subscriber_server 0 bus1).
  reflexivity.
Defined.

Lemma published_event_never_dangles_witness :
  BUS_LOC_TOPIC = BUS_LOC_TOPIC ∧
  emitted JsId_String (ReqUpdateBusLocation "1" 10 20) (buses one_subscriber_server) =
    [(BUS_LOC_TOPIC, mkEvent 0)] ∧
  ∃ b b',
    payload (buses (handle JsId_String (ReqUpdateBusLocation "1" 10 20)
                      one_subscriber_server)) (mkEvent 0) = Some b ∧
    payload (buses (handle_all JsId_String busy_requests
                      (handle JsId_String (ReqUpdateBusLocation "1" 10 20)
                         one_subscriber_server))) (mkEvent 0) = Some b' ∧
    same_bus b b'.
Proof.
  apply (published_event_never_dangles JsId_String (ReqUpdateBusLocation "1" 10 20)
           busy_requests one_subscriber_server BUS_LOC_TOPIC (mkEvent 0)).
  apply list_elem_of_singleton. reflexivity.
Defined.

Lemma subscriber_gets_each_location_write_witness :
  PubSub.channel 0 (pubsub (handle_all JsId_String busy_requests one_subscriber_server)) =
    [mkEvent 0; mkEvent 1].
Proof.
  refine (eq_trans
    (subscriber_gets_each_location_write JsId_String 0 busy_requests
       one_subscriber_server _ _ _ _) _).
  - exact wf_one_subscriber.
  - apply elem_of_subscribers_subscribe. by left.
  - unfold busy_requests. rewrite !not_elem_of_cons.
    split_and!; try discriminate. apply not_elem_of_nil.
  - unfold busy_requests. rewrite !not_elem_of_cons.
    split_and!; try discriminate. apply not_elem_of_nil.
  - vm_compute. reflexivity.
Defined.

Lemma C7_witness :
  let n := length (PubSub.channel 0 (pubsub one_subscriber_server)) in
  let sv1 := (run (updateBusLocation "1" 10 20) one_subscriber_server).2 in
  let sv2 := handle_all JsId_String other_requests sv1 in
  let sv3 := (run (updateBusLocation "1" 30 40) sv2).2 in
  let sv4 := (run (simulate_location JsId_String (Some (JsNumber 1)) 0.75 0.25) sv2).2 in
  PubSub.channel 0 (pubsub sv1) =
    PubSub.channel 0 (pubsub one_subscriber_server) ++ [mkEvent 0] ∧
  deref (buses sv1) 0 = Some (at_coords 10 20 bus1) ∧
  (drain 0 sv1).1 !! n = Some (Some (at_coords 10 20 bus1)) ∧
  (drain 0 sv2).1 !! n = Some (Some (at_coords 10 20 bus1)) ∧
  (drain 0 sv3).1 !! n = Some (Some (at_coords 30 40 bus1)) ∧
  (drain 0 sv4).1 !! n = Some (Some (jitter 0.75 0.25 (at_coords 10 20 bus1))).
Proof.
  apply (C7_event_shows_live_bus JsId_String 0 "1" (JsNumber 1) 10 20 30 40 0.75 0.25
           other_requests one_subscriber_server 0 bus1).
  - exact wf_one_subscriber.
  - apply elem_of_subscribers_subscribe. by left.
  - reflexivity.
  - vm_compute. reflexivity.
  - unfold other_requests.
    repeat (apply Forall_cons_2; [simpl; first [discriminate | by intros []]|]).
    apply Forall_nil_2.
  - unfold other_requests. rewrite !not_elem_of_cons.
    split_and!; try discriminate. apply not_elem_of_nil.
  - unfold other_requests. rewrite !not_elem_of_cons.
    split_and!; try discriminate. apply not_elem_of_nil.
Defined.

Example simulate_location_any_bodies :
  let String_ (v : option JsId) := JsId_String <$> v in
  result (simulate_location_any String_ (Some None) 0.75 0.25 initial_buses) =
    HandlerThrew "TypeError" ∧
  result (simulate_location_any String_ (Some None) 0.75 0.25 []) =
    Response 404 (ErrorBody "bus not found") ∧
  result (simulate_location_any String_ None 0.75 0.25 initial_buses) =
    HandlerThrew "TypeError" ∧
  result (simulate_location_any String_ (Some (Some (JsNumber 7))) 0.75 0.25 initial_buses) =
    Response 404 (ErrorBody "bus not found") ∧
  published (simulate_location_any String_ (Some (Some (JsNumber 1))) 0.75 0.25 initial_buses) =
    [(BUS_LOC_TOPIC, mkEvent 0)].
Proof. by vm_compute. Qed.
